(** * tiniargs: a shallow embedding of [src/index.ts]

    The development follows the TypeScript source function by function:
    the two regular expressions, [parseInt], [parseFlagNoSchema],
    [parseFlagWithShema], [validateSchema] and [tiniargs].  It embeds the
    revision with optional short names, required entries and defaults; the
    earlier revision is the same code without them.

    Conventions of the embedding.
    - A JavaScript string is a [string]; a character is one code unit, and
      the model covers the code units below 256.
    - A JavaScript number is an IEEE double.  [JSNumber] holds the doubles
      that this code can produce, the integer-valued ones with their sign
      and the two infinities, and [NaN] is the [None] of an option.  A
      default value of a schema is taken to be integer-valued.
    - [undefined] is the [None] of an [option].
    - A [throw] is the [Throw] of the [result] monad; evaluation order is
      the order of the binds. *)

From Stdlib Require Import ZArith Ascii String Permutation Lia.
From stdpp Require Import base option list gmap strings.

Local Open Scope Z_scope.
Local Open Scope stdpp_scope.

(** ** Strings *)

Module Str.

(** The double quote, for building messages. *)
Definition dq : string := String (ascii_of_nat 34) EmptyString.

Definition quoted (s : string) : string := dq +:+ s +:+ dq.

(** [s.startsWith(p)] *)
Fixpoint startsWith (s p : string) {struct p} : bool :=
  match p, s with
  | EmptyString, _ => true
  | String c p', String d s' => if Ascii.eqb c d then startsWith s' p' else false
  | String _ _, EmptyString => false
  end.

(** The longest prefix whose characters all satisfy [p], and what follows. *)
Fixpoint takeWhile (p : ascii → bool) (s : string) : string :=
  match s with
  | EmptyString => EmptyString
  | String c t => if p c then String c (takeWhile p t) else EmptyString
  end.

Fixpoint dropWhile (p : ascii → bool) (s : string) : string :=
  match s with
  | EmptyString => EmptyString
  | String c t => if p c then dropWhile p t else s
  end.

Fixpoint all (p : ascii → bool) (s : string) : bool :=
  match s with
  | EmptyString => true
  | String c t => p c && all p t
  end.

Definition isEmpty (s : string) : bool :=
  match s with EmptyString => true | String _ _ => false end.

(** [s.split("")]: the characters of [s], each as a string of length one. *)
Fixpoint split (s : string) : list string :=
  match s with
  | EmptyString => []
  | String c t => String c EmptyString :: split t
  end.

End Str.

(** ** Character classes of the regular expressions *)

Definition code (c : ascii) : nat := nat_of_ascii c.

Definition between (lo hi : nat) (c : ascii) : bool :=
  (Nat.leb lo (code c) && Nat.leb (code c) hi)%bool.

(** [\d] *)
Definition is_digit (c : ascii) : bool := between 48 57 c.

(** [\w], that is [A-Za-z0-9_] *)
Definition is_word (c : ascii) : bool :=
  (between 65 90 c || between 97 122 c || is_digit c || Nat.eqb (code c) 95)%bool.

(** The line terminators, which [.] does not match: LF and CR (U+2028 and
    U+2029 lie outside the modelled code units). *)
Definition is_line_terminator (c : ascii) : bool :=
  (Nat.eqb (code c) 10 || Nat.eqb (code c) 13)%bool.

(** [.] *)
Definition is_dot (c : ascii) : bool := negb (is_line_terminator c).

(** White space and line terminators as [parseInt] skips them: TAB, LF, VT,
    FF, CR, SP and NBSP. *)
Definition is_white_space (c : ascii) : bool :=
  (between 9 13 c || Nat.eqb (code c) 32 || Nat.eqb (code c) 160)%bool.

(** ** [FLAG_REGEX]

    The pattern is, in order: a dash; an optional second dash; the key
    group [\w+]; and an optional, non-capturing group made of [=] and the
    value group, a greedy run of [.] (any character but a line terminator).
    It carries no anchor.

    [arg.match(FLAG_REGEX)] searches for the leftmost position at which the
    pattern matches.  The result of a match is the pair of its two capture
    groups: the key, and the value ([None] when the optional group did not
    take part).  The matched text itself is never empty, so the source's
    test [!didMatch] holds exactly when there is no match. *)

(** The key group and the optional value group at the start of [s].  [\w+]
    is greedy and the rest of the pattern accepts every continuation, so the
    key is the longest run of word characters; the optional group is greedy
    too and is taken whenever an [=] follows. *)
Definition match_key_val (s : string) : option (string * option string) :=
  let key := Str.takeWhile is_word s in
  if Str.isEmpty key then None
  else match Str.dropWhile is_word s with
       | String c r =>
           if Ascii.eqb c "=" then Some (key, Some (Str.takeWhile is_dot r))
           else Some (key, None)
       | EmptyString => Some (key, None)
       end.

(** The whole pattern at the start of [s]: a dash, then [-?] first tried
    with a second dash and, when the rest fails, without it. *)
Definition match_here (s : string) : option (string * option string) :=
  match s with
  | String c t =>
      if Ascii.eqb c "-" then
        match t with
        | String d u =>
            if Ascii.eqb d "-" then
              match match_key_val u with
              | Some m => Some m
              | None => match_key_val t
              end
            else match_key_val t
        | EmptyString => match_key_val t
        end
      else None
  | EmptyString => None
  end.

(** [arg.match(FLAG_REGEX)] *)
Fixpoint FLAG_REGEX (arg : string) : option (string * option string) :=
  match match_here arg with
  | Some m => Some m
  | None =>
      match arg with
      | EmptyString => None
      | String _ t => FLAG_REGEX t
      end
  end.

(** ** [NUMBER_REGEX = /^\d+$/]

    [NUMBER_REGEX.test(val)] converts [val] to a string first; [undefined]
    becomes the text [undefined], which has no digit. *)
Definition ToString (val : option string) : string :=
  match val with
  | Some s => s
  | None => "undefined"
  end.

Definition NUMBER_REGEX (val : option string) : bool :=
  let s := ToString val in
  (negb (Str.isEmpty s) && Str.all is_digit s)%bool.

(** ** Numbers *)

(** The doubles of the model: an integer-valued double is its sign and its
    magnitude, so that [-0] is [Integer true 0]. *)
Inductive JSNumber : Type :=
| Infinity (negative : bool)
| Integer (negative : bool) (magnitude : Z).

(** The double nearest to the integer of sign [negative] and magnitude [n],
    as the conversion of a mathematical value to a number rounds it: exact
    below 2^53; beyond, 53 significant bits are kept, the rest is rounded to
    nearest with ties to the even significand; a result of 2^1024 or more is
    an infinity. *)
Definition nearest_double (negative : bool) (n : Z) : JSNumber :=
  if n <? 2 ^ 53 then Integer negative n
  else
    let shift := Z.log2 n - 52 in
    let q := Z.shiftr n shift in
    let r := n - Z.shiftl q shift in
    let half := 2 ^ (shift - 1) in
    let q' := if (half <? r) || ((r =? half) && Z.odd q) then q + 1 else q in
    let m := Z.shiftl q' shift in
    if 2 ^ 1024 <=? m then Infinity negative else Integer negative m.

(** ** [parseInt(val, 10)] *)

Definition digit_value (c : ascii) : Z := Z.of_nat (code c) - 48.

(** The mathematical integer that the leading digits of [s] denote, read
    from the left while there are digits.  It is exact: [parseInt] rounds it
    once, at the end. *)
Fixpoint mathInt (acc : Z) (s : string) : Z :=
  match s with
  | EmptyString => acc
  | String c t => if is_digit c then mathInt (10 * acc + digit_value c) t else acc
  end.

(** Leading white space is skipped, one sign is accepted, then the longest
    run of digits is read; no digit at all gives [NaN].  The result is the
    double nearest to the integer read, with the sign, also for zero.  (The
    language allows an implementation to read digits after the twentieth as
    zeros; like the current engines the model reads them all.) *)
Definition parseInt (val : option string) : option JSNumber :=
  let input := Str.dropWhile is_white_space (ToString val) in
  let '(negative, rest) :=
    match input with
    | String c r =>
        if Ascii.eqb c "-" then (true, r)
        else if Ascii.eqb c "+" then (false, r)
        else (false, input)
    | EmptyString => (false, input)
    end in
  match rest with
  | String c _ =>
      if is_digit c then Some (nearest_double negative (mathInt 0 rest)) else None
  | EmptyString => None
  end.

(** ** Values, schema entries and errors *)

(** [FlagValue = string | boolean | number] *)
Inductive FlagValue : Type :=
| VString (s : string)
| VBoolean (b : bool)
| VNumber (n : JSNumber).

(** [typeof v] *)
Definition typeof (v : FlagValue) : string :=
  match v with
  | VString _ => "string"
  | VBoolean _ => "boolean"
  | VNumber _ => "number"
  end.

(** [valueType] is kept as the string it is at run time: the type
    [TypeofFlagValue] is not enforced, and [validateSchema] checks it. *)
Record FlagSchema : Type := {
  long : string;
  short : option string;
  required : option bool;
  defaultValue : option FlagValue;
  valueType : string
}.

(** What [flags[key]] can evaluate to: [undefined], a stored flag value, or
    a member that the object literal inherits from [Object.prototype]. *)
Inductive JSValue : Type :=
| JUndefined
| JFlag (v : FlagValue)
| JInherited (name : string).

(** The error classes.  [UnknownFlagError], [DuplicateFlagError],
    [MissingRequiredFlagError] and [InvalidDefaultValueError] build their
    message from their fields; the other two receive it. *)
Inductive Error : Type :=
| UnknownFlagError (key : string) (isShort : bool)
| DuplicateFlagError (key : string) (first : JSValue) (second : FlagValue)
| FlagParseError (msg : string) (key : string) (givenValue : option string)
| SchemaValidationError (msg : string)
| MissingRequiredFlagError (key : string)
| InvalidDefaultValueError (key : string) (expected : string) (actual : string).

(** ** Exceptions *)

Inductive result (A : Type) : Type :=
| Ok (a : A)
| Throw (e : Error).
Arguments Ok {A} a.
Arguments Throw {A} e.

Definition bind {A B : Type} (m : result A) (k : A → result B) : result B :=
  match m with
  | Ok a => k a
  | Throw e => Throw e
  end.

Notation "'let*' x ':=' m 'in' k" := (bind m (fun x => k))
  (at level 10, x pattern, m at level 100, k at level 200).

(** [xs.map(f)] for an [f] that may throw: left to right, stopping at the
    first exception. *)
Fixpoint mapM {A B : Type} (f : A → result B) (xs : list A) : result (list B) :=
  match xs with
  | [] => Ok []
  | x :: rest =>
      let* y := f x in
      let* ys := mapM f rest in
      Ok (y :: ys)
  end.

(** [xs.forEach(f)] for an [f] that updates the variables [st] it closes
    over and may throw. *)
Fixpoint forEach {A S : Type} (f : S → A → result S) (st : S) (xs : list A) : result S :=
  match xs with
  | [] => Ok st
  | x :: rest =>
      let* st' := f st x in
      forEach f st' rest
  end.

Definition is_ok {A : Type} (r : result A) : bool :=
  match r with Ok _ => true | Throw _ => false end.

(** ** [parseFlagNoSchema] *)

Definition FlagPair : Type := string * FlagValue.

(** [val ?? true]: only [undefined] is replaced, the empty string is kept. *)
Definition or_true (val : option string) : FlagValue :=
  match val with
  | Some v => VString v
  | None => VBoolean true
  end.

Definition parseFlagNoSchema (arg : string) : list (option FlagPair) :=
  match FLAG_REGEX arg with
  | None => [None]
  | Some (key, val) =>
      match NUMBER_REGEX val, parseInt val with
      | true, Some n => [Some (key, VNumber n)]
      | _, _ => [Some (key, or_true val)]
      end
  end.

(** ** [parseFlagWithShema] *)

(** [schemas.find((s) => s.short === char)] *)
Definition find_short (schemas : list FlagSchema) (char : string) : option FlagSchema :=
  List.find (λ s, bool_decide (short s = Some char)) schemas.

(** [schemas.find((s) => s.long === key)] *)
Definition find_long (schemas : list FlagSchema) (key : string) : option FlagSchema :=
  List.find (λ s, bool_decide (long s = key)) schemas.

(** The callback of [key.split("").forEach] in the short form; the array
    [shortFlags] it pushes to is the state. *)
Definition short_step (schemas : list FlagSchema) (val : option string)
    (shortFlags : list (option FlagPair)) (char : string) : result (list (option FlagPair)) :=
  match find_short schemas char with
  | None => Throw (UnknownFlagError char true)
  | Some flagSchema =>
      if negb (bool_decide (valueType flagSchema = "boolean")) then
        Throw (FlagParseError
                 ("Cannot specify " +:+ valueType flagSchema +:+ " flag "
                    +:+ Str.quoted (long flagSchema) +:+ " in short form")
                 char val)
      else Ok (shortFlags ++ [Some (long flagSchema, VBoolean true)])
  end.

(** Truthiness of [val]: defined and not empty. *)
Definition truthy (val : option string) : bool :=
  match val with
  | Some v => negb (Str.isEmpty v)
  | None => false
  end.

(** When no [case] of the [switch] applies the source function returns
    [undefined]; [flat()] keeps that as one [undefined] element, exactly as
    it does for the array [[undefined]], and so it is modelled by [[None]]. *)
Definition parseFlagWithShema (schemas : list FlagSchema) (arg : string)
    : result (list (option FlagPair)) :=
  match FLAG_REGEX arg with
  | None => Ok [None]
  | Some (key, val) =>
      if negb (Str.startsWith arg "--") then
        forEach (short_step schemas val) [] (Str.split key)
      else
        match find_long schemas key with
        | None => Throw (UnknownFlagError key false)
        | Some flagSchema =>
            let long := long flagSchema in
            let valueType := valueType flagSchema in
            if bool_decide (valueType = "number") then
              match parseInt val with
              | None =>
                  Throw (FlagParseError
                           ("Failed to parse numeric flag " +:+ Str.quoted key
                              +:+ " (given value " +:+ Str.quoted (ToString val) +:+ ")")
                           key val)
              | Some parsed => Ok [Some (long, VNumber parsed)]
              end
            else if bool_decide (valueType = "boolean") then
              if truthy val && negb (bool_decide (val = Some "true"))
                 && negb (bool_decide (val = Some "false")) then
                Throw (FlagParseError
                         ("Invalid value " +:+ Str.quoted (ToString val)
                            +:+ " for boolean flag " +:+ Str.quoted key
                            +:+ ". Expected true or false")
                         key val)
              else Ok [Some (long, VBoolean (negb (truthy val) || bool_decide (val = Some "true")))]
            else if bool_decide (valueType = "string") then
              let nothing :=
                FlagParseError
                  ("Expected flag " +:+ Str.quoted key +:+ " to be a string but got nothing")
                  key val in
              match val with
              | Some v => if Str.isEmpty v then Throw nothing else Ok [Some (long, VString v)]
              | None => Throw nothing
              end
            else Ok [None]
        end
  end.

(** ** [validateSchema] *)

(** [if (c) throw e] *)
Definition throw_if (c : bool) (e : Error) : result unit :=
  if c then Throw e else Ok tt.

(** The body of the [schemas.forEach] callback; the two sets [longFlags]
    and [shortFlags] are the state. *)
Definition validate_step (seen : gset string * gset string) (s : FlagSchema)
    : result (gset string * gset string) :=
  let '(longFlags, shortFlags) := seen in
  let* _ := throw_if (Nat.leb (String.length (long s)) 1)
              (SchemaValidationError
                 ("Invalid long flag " +:+ Str.quoted (long s)
                    +:+ ": flag must be greater than 1 character")) in
  let* _ := throw_if (bool_decide (long s ∈ longFlags))
              (SchemaValidationError ("Duplicate long flag " +:+ Str.quoted (long s))) in
  let* _ := match short s with
            | Some sh =>
                throw_if (negb (Nat.eqb (String.length sh) 1))
                  (SchemaValidationError
                     ("Invalid flag " +:+ Str.quoted (long s)
                        +:+ ": short flag must be exactly 1 character"))
            | None => Ok tt
            end in
  let* _ := match short s with
            | Some sh =>
                throw_if (bool_decide (sh ∈ shortFlags))
                  (SchemaValidationError ("Duplicate short flag " +:+ Str.quoted sh))
            | None => Ok tt
            end in
  let* _ := match defaultValue s with
            | Some d =>
                throw_if (negb (bool_decide (typeof d = valueType s)))
                  (InvalidDefaultValueError (long s) (valueType s) (typeof d))
            | None => Ok tt
            end in
  let* _ := throw_if (negb (bool_decide (valueType s ∈ ["string"; "number"; "boolean"])))
              (SchemaValidationError
                 ("Invalid value type for flag " +:+ Str.quoted (long s)
                    +:+ ": " +:+ Str.quoted (valueType s))) in
  Ok ({[long s]} ∪ longFlags,
      match short s with
      | Some sh => {[sh]} ∪ shortFlags
      | None => shortFlags
      end).

Definition validateSchema (schemas : list FlagSchema) : result (list FlagSchema) :=
  let* _ := forEach validate_step (∅, ∅) schemas in
  Ok schemas.

(** ** [tiniargs] *)

Record ParsedArgs : Type := {
  positionals : list string;
  flags : gmap string FlagValue
}.

(** The property names that the object literal [{}] inherits from
    [Object.prototype]. *)
Definition Object_prototype : list string :=
  [ "constructor"; "hasOwnProperty"; "isPrototypeOf"; "propertyIsEnumerable";
    "toLocaleString"; "toString"; "valueOf"; "__proto__";
    "__defineGetter__"; "__defineSetter__"; "__lookupGetter__"; "__lookupSetter__" ].

(** [flags[key]]: an own property first, then the prototype.  Own
    properties are only ever created under keys for which this lookup gave
    [undefined], hence never under an inherited name. *)
Definition get (flags : gmap string FlagValue) (key : string) : JSValue :=
  match flags !! key with
  | Some v => JFlag v
  | None => if bool_decide (key ∈ Object_prototype) then JInherited key else JUndefined
  end.

(** [args.filter((a) => !a.startsWith("-"))] *)
Definition filter_positionals (args : list string) : list string :=
  List.filter (λ a, negb (Str.startsWith a "-")) args.

(** [flagParseFn]: choosing it validates the schema. *)
Definition flagParseFn (schema : option (list FlagSchema))
    : result (string → result (list (option FlagPair))) :=
  match schema with
  | None => Ok (λ arg, Ok (parseFlagNoSchema arg))
  | Some schema =>
      let* schemas := validateSchema schema in
      Ok (parseFlagWithShema schemas)
  end.

(** [.flat().filter((f) => f !== undefined)] *)
Definition parsedFlags (parsed : list (list (option FlagPair))) : list FlagPair :=
  omap id (concat parsed).

(** The callback of [parsedFlags.forEach]; the object [flags] is the
    state. *)
Definition merge_step (flags : gmap string FlagValue) (f : FlagPair)
    : result (gmap string FlagValue) :=
  let '(key, val) := f in
  match get flags key with
  | JUndefined => Ok (<[key := val]> flags)
  | first => Throw (DuplicateFlagError key first val)
  end.

(** The callback over the required entries. *)
Definition required_step (flags : gmap string FlagValue) (s : FlagSchema)
    : result (gmap string FlagValue) :=
  match get flags (long s) with
  | JUndefined => Throw (MissingRequiredFlagError (long s))
  | _ => Ok flags
  end.

(** [!s.required] *)
Definition not_required (s : FlagSchema) : bool :=
  match required s with
  | Some true => false
  | _ => true
  end.

(** The callback over the entries with a default. *)
Definition default_step (flags : gmap string FlagValue) (s : FlagSchema)
    : gmap string FlagValue :=
  match get flags (long s), defaultValue s with
  | JUndefined, Some d => <[long s := d]> flags
  | _, _ => flags
  end.

(** The part of [tiniargs] under [if (schema !== undefined)]. *)
Definition apply_schema (schema : list FlagSchema) (flags : gmap string FlagValue)
    : result (gmap string FlagValue) :=
  let* flags :=
    forEach required_step flags
      (List.filter (λ s, bool_decide (required s = Some true)) schema) in
  Ok (foldl default_step flags
        (List.filter (λ s, not_required s && bool_decide (defaultValue s ≠ None)) schema)).

Definition tiniargs (args : list string) (schema : option (list FlagSchema))
    : result ParsedArgs :=
  let positionals := filter_positionals args in
  let* flagParseFn := flagParseFn schema in
  let* parsed := mapM flagParseFn args in
  let parsedFlags := parsedFlags parsed in
  let* flags := forEach merge_step ∅ parsedFlags in
  let* flags :=
    match schema with
    | None => Ok flags
    | Some schema => apply_schema schema flags
    end in
  Ok {| positionals := positionals; flags := flags |}.

(** ** The earlier revision

    The second source file is the earlier revision of the same code: a
    schema entry has a mandatory short name and neither [required] nor
    [defaultValue]; [validateSchema] has no check of a default, and
    [tiniargs] ends with the merge.  The regular expressions,
    [parseFlagNoSchema] and the error classes are the same text. *)

Module Earlier.

Record FlagSchema : Type := {
  long : string;
  short : string;
  valueType : string
}.

(** [schemas.find((s) => s.short === char)] *)
Definition find_short (schemas : list FlagSchema) (char : string) : option FlagSchema :=
  List.find (λ s, bool_decide (short s = char)) schemas.

(** [schemas.find((s) => s.long === key)] *)
Definition find_long (schemas : list FlagSchema) (key : string) : option FlagSchema :=
  List.find (λ s, bool_decide (long s = key)) schemas.

Definition short_step (schemas : list FlagSchema) (val : option string)
    (shortFlags : list (option FlagPair)) (char : string) : result (list (option FlagPair)) :=
  match find_short schemas char with
  | None => Throw (UnknownFlagError char true)
  | Some flagSchema =>
      if negb (bool_decide (valueType flagSchema = "boolean")) then
        Throw (FlagParseError
                 ("Cannot specify " +:+ valueType flagSchema +:+ " flag "
                    +:+ Str.quoted (long flagSchema) +:+ " in short form")
                 char val)
      else Ok (shortFlags ++ [Some (long flagSchema, VBoolean true)])
  end.

Definition parseFlagWithShema (schemas : list FlagSchema) (arg : string)
    : result (list (option FlagPair)) :=
  match FLAG_REGEX arg with
  | None => Ok [None]
  | Some (key, val) =>
      if negb (Str.startsWith arg "--") then
        forEach (short_step schemas val) [] (Str.split key)
      else
        match find_long schemas key with
        | None => Throw (UnknownFlagError key false)
        | Some flagSchema =>
            let long := long flagSchema in
            let valueType := valueType flagSchema in
            if bool_decide (valueType = "number") then
              match parseInt val with
              | None =>
                  Throw (FlagParseError
                           ("Failed to parse numeric flag " +:+ Str.quoted key
                              +:+ " (given value " +:+ Str.quoted (ToString val) +:+ ")")
                           key val)
              | Some parsed => Ok [Some (long, VNumber parsed)]
              end
            else if bool_decide (valueType = "boolean") then
              if truthy val && negb (bool_decide (val = Some "true"))
                 && negb (bool_decide (val = Some "false")) then
                Throw (FlagParseError
                         ("Invalid value " +:+ Str.quoted (ToString val)
                            +:+ " for boolean flag " +:+ Str.quoted key
                            +:+ ". Expected true or false")
                         key val)
              else Ok [Some (long, VBoolean (negb (truthy val) || bool_decide (val = Some "true")))]
            else if bool_decide (valueType = "string") then
              let nothing :=
                FlagParseError
                  ("Expected flag " +:+ Str.quoted key +:+ " to be a string but got nothing")
                  key val in
              match val with
              | Some v => if Str.isEmpty v then Throw nothing else Ok [Some (long, VString v)]
              | None => Throw nothing
              end
            else Ok [None]
        end
  end.

Definition validate_step (seen : gset string * gset string) (s : FlagSchema)
    : result (gset string * gset string) :=
  let '(longFlags, shortFlags) := seen in
  let* _ := throw_if (Nat.leb (String.length (long s)) 1)
              (SchemaValidationError
                 ("Invalid long flag " +:+ Str.quoted (long s)
                    +:+ ": flag must be greater than 1 character")) in
  let* _ := throw_if (bool_decide (long s ∈ longFlags))
              (SchemaValidationError ("Duplicate long flag " +:+ Str.quoted (long s))) in
  let* _ := throw_if (negb (Nat.eqb (String.length (short s)) 1))
              (SchemaValidationError
                 ("Invalid flag " +:+ Str.quoted (long s)
                    +:+ ": short flag must be exactly 1 character")) in
  let* _ := throw_if (bool_decide (short s ∈ shortFlags))
              (SchemaValidationError ("Duplicate short flag " +:+ Str.quoted (short s))) in
  let* _ := throw_if (negb (bool_decide (valueType s ∈ ["string"; "number"; "boolean"])))
              (SchemaValidationError
                 ("Invalid value type for flag " +:+ Str.quoted (long s)
                    +:+ ": " +:+ Str.quoted (valueType s))) in
  Ok ({[long s]} ∪ longFlags, {[short s]} ∪ shortFlags).

Definition validateSchema (schemas : list FlagSchema) : result (list FlagSchema) :=
  let* _ := forEach validate_step (∅, ∅) schemas in
  Ok schemas.

Definition flagParseFn (schema : option (list FlagSchema))
    : result (string → result (list (option FlagPair))) :=
  match schema with
  | None => Ok (λ arg, Ok (parseFlagNoSchema arg))
  | Some schema =>
      let* schemas := validateSchema schema in
      Ok (parseFlagWithShema schemas)
  end.

Definition tiniargs (args : list string) (schema : option (list FlagSchema))
    : result ParsedArgs :=
  let positionals := filter_positionals args in
  let* flagParseFn := flagParseFn schema in
  let* parsed := mapM flagParseFn args in
  let parsedFlags := parsedFlags parsed in
  let* flags := forEach merge_step ∅ parsedFlags in
  Ok {| positionals := positionals; flags := flags |}.

End Earlier.

(** * Reference definitions

    Definitions that restate the behaviour independently of the code above:
    the theorems compare the code with them. *)

(** The head of [s] is a word character. *)
Definition head_is_word (s : string) : bool :=
  match s with
  | String c _ => is_word c
  | EmptyString => false
  end.

(** Some dash of [s] is directly followed by a word character. *)
Fixpoint dash_then_word (s : string) : bool :=
  match s with
  | String c t => (Ascii.eqb c "-" && head_is_word t) || dash_then_word t
  | EmptyString => false
  end.

(** The token grammar in the specification's words, for comparison with
    [FLAG_REGEX]: anchored at both ends, one or two dashes, a key of
    word characters, and optionally [=] and a value running to the end of
    the token. *)
Definition spec_key_value (s : string) : bool :=
  negb (Str.isEmpty (Str.takeWhile is_word s)) &&
  match Str.dropWhile is_word s with
  | String c r => Ascii.eqb c "=" && Str.all is_dot r
  | EmptyString => true
  end.

Definition spec_flag_grammar (s : string) : bool :=
  match s with
  | String c t =>
      Ascii.eqb c "-" &&
      (spec_key_value t ||
       match t with
       | String d u => Ascii.eqb d "-" && spec_key_value u
       | EmptyString => false
       end)
  | EmptyString => false
  end.

(** The integer that a string of decimal digits denotes, by positional
    notation. *)
Fixpoint decimal (s : string) : Z :=
  match s with
  | EmptyString => 0
  | String c t => digit_value c * 10 ^ Z.of_nat (String.length t) + decimal t
  end.

(** ** The schema checks, as the specification lists them

    The specification's words, for comparison with [validateSchema]: six
    checks in a fixed priority, applied to each entry
    in input order, the names already seen being those of the earlier
    entries. *)

Definition err_long_too_short (s : FlagSchema) : Error :=
  SchemaValidationError
    ("Invalid long flag " +:+ Str.quoted (long s)
       +:+ ": flag must be greater than 1 character").

Definition err_duplicate_long (s : FlagSchema) : Error :=
  SchemaValidationError ("Duplicate long flag " +:+ Str.quoted (long s)).

Definition err_short_length (s : FlagSchema) : Error :=
  SchemaValidationError
    ("Invalid flag " +:+ Str.quoted (long s)
       +:+ ": short flag must be exactly 1 character").

Definition err_duplicate_short (s : FlagSchema) : Error :=
  SchemaValidationError
    ("Duplicate short flag " +:+ Str.quoted (default EmptyString (short s))).

Definition err_default_type (s : FlagSchema) : Error :=
  InvalidDefaultValueError (long s) (valueType s)
    (default EmptyString (typeof <$> defaultValue s)).

Definition err_value_type (s : FlagSchema) : Error :=
  SchemaValidationError
    ("Invalid value type for flag " +:+ Str.quoted (long s)
       +:+ ": " +:+ Str.quoted (valueType s)).

(** Each check is the condition under which it fails, with its error. *)
Definition spec_checks (earlier : list FlagSchema) (s : FlagSchema) : list (bool * Error) :=
  [ (Nat.leb (String.length (long s)) 1, err_long_too_short s);
    (bool_decide (long s ∈ long <$> earlier), err_duplicate_long s);
    (match short s with
     | Some sh => negb (Nat.eqb (String.length sh) 1)
     | None => false
     end, err_short_length s);
    (match short s with
     | Some sh => bool_decide (sh ∈ omap short earlier)
     | None => false
     end, err_duplicate_short s);
    (match defaultValue s with
     | Some d => negb (bool_decide (typeof d = valueType s))
     | None => false
     end, err_default_type s);
    (negb (bool_decide (valueType s ∈ ["string"; "number"; "boolean"])), err_value_type s) ].

(** The error of the first failing check of an entry, if any. *)
Definition spec_entry_failure (earlier : list FlagSchema) (s : FlagSchema) : option Error :=
  snd <$> List.find fst (spec_checks earlier s).

(** The entry violates some rule. *)
Definition violates (earlier : list FlagSchema) (s : FlagSchema) : bool :=
  existsb fst (spec_checks earlier s).

(** The error of the first entry, in input order, that has a failing
    check. *)
Fixpoint spec_first_violation (earlier rest : list FlagSchema) : option Error :=
  match rest with
  | [] => None
  | s :: rest' =>
      match spec_entry_failure earlier s with
      | Some e => Some e
      | None => spec_first_violation (earlier ++ [s]) rest'
      end
  end.

(** The checks of an entry that do not depend on the other entries. *)
Definition entry_ok (s : FlagSchema) : bool :=
  negb (Nat.leb (String.length (long s)) 1) &&
  match short s with
  | Some sh => Nat.eqb (String.length sh) 1
  | None => true
  end &&
  match defaultValue s with
  | Some d => bool_decide (typeof d = valueType s)
  | None => true
  end &&
  bool_decide (valueType s ∈ ["string"; "number"; "boolean"]).

(** A schema is well formed when each entry passes its own checks and no
    long or short name occurs twice. *)
Definition well_formed (schema : list FlagSchema) : Prop :=
  Forall (λ s, entry_ok s = true) schema ∧
  NoDup (long <$> schema) ∧
  NoDup (omap short schema).

(** ** Required entries

    [flags[key] === undefined] *)
Definition is_undefined (v : JSValue) : bool :=
  match v with
  | JUndefined => true
  | _ => false
  end.

(** The first entry, in schema order, that is required and whose long name
    the flags do not have. *)
Definition first_missing (schema : list FlagSchema) (flags : gmap string FlagValue)
    : option FlagSchema :=
  List.find (λ s, bool_decide (required s = Some true) && is_undefined (get flags (long s)))
    schema.

(** The entries whose default may be inserted. *)
Definition with_default (schema : list FlagSchema) : list FlagSchema :=
  List.filter (λ s, not_required s && bool_decide (defaultValue s ≠ None)) schema.

(** ** Sample schema entries, as the test suite writes them *)

Definition entry (long short valueType : string) : FlagSchema :=
  {| long := long; short := Some short; required := None;
     defaultValue := None; valueType := valueType |}.

Definition required_entry (long valueType : string) (defaultValue : option FlagValue)
    : FlagSchema :=
  {| long := long; short := None; required := Some true;
     defaultValue := defaultValue; valueType := valueType |}.

Definition optional_entry (long valueType : string) (defaultValue : option FlagValue)
    : FlagSchema :=
  {| long := long; short := None; required := None;
     defaultValue := defaultValue; valueType := valueType |}.

(** ** Failing tokens

    The token [arg] makes the parser throw [e], and so does [tiniargs] for
    arguments in which the tokens before [arg] parse. *)
Definition token_throws (schemas : list FlagSchema) (arg : string) (e : Error) : Prop :=
  parseFlagWithShema schemas arg = Throw e ∧
  ∀ pre post,
    is_ok (mapM (parseFlagWithShema schemas) pre) = true →
    tiniargs (pre ++ arg :: post) (Some schemas) = Throw e.


(** The error of a string flag without a value. *)
Definition err_string_nothing (key : string) (val : option string) : Error :=
  FlagParseError
    ("Expected flag " +:+ Str.quoted key +:+ " to be a string but got nothing")
    key val.


(** The pair that a boolean entry given in short form emits. *)
Definition short_pair (s : FlagSchema) : option FlagPair :=
  Some (long s, VBoolean true).

(** [c] is the short name of the boolean entry [s] of the schema. *)
Definition boolean_short (schemas : list FlagSchema) (c : string) (s : FlagSchema) : Prop :=
  s ∈ schemas ∧ short s = Some c ∧ valueType s = "boolean".

(** The string has no dash. *)
Definition dash_free (s : string) : bool :=
  Str.all (λ c, negb (Ascii.eqb c "-")) s.

(** ** Further reference definitions *)

(** The pairs that the tokens emit without a schema, in emission order. *)
Definition no_schema_pairs (args : list string) : list FlagPair :=
  parsedFlags (parseFlagNoSchema <$> args).

(** An entry of the earlier revision, written as an entry of this one. *)
Definition upgrade (s : Earlier.FlagSchema) : FlagSchema :=
  {| long := Earlier.long s; short := Some (Earlier.short s); required := None;
     defaultValue := None; valueType := Earlier.valueType s |}.

Definition upgrade_schema (schema : option (list Earlier.FlagSchema))
    : option (list FlagSchema) :=
  match schema with
  | Some entries => Some (upgrade <$> entries)
  | None => None
  end.

(** The shape of the values that no-schema mode produces: a number has no
    minus sign, be it finite or the infinity of a very long run of digits. *)
Definition no_schema_value (v : FlagValue) : Prop :=
  match v with
  | VBoolean b => b = true
  | VNumber (Integer false n) => 0 ≤ n
  | VNumber (Infinity false) => True
  | VNumber _ => False
  | VString s => Str.all is_dot s = true
  end.

(** The error of a number flag whose value does not parse. *)
Definition err_number (key : string) (val : option string) : Error :=
  FlagParseError
    ("Failed to parse numeric flag " +:+ Str.quoted key
       +:+ " (given value " +:+ Str.quoted (ToString val) +:+ ")")
    key val.

(** The error of a boolean flag whose value is neither [true] nor [false]. *)
Definition err_boolean (key : string) (val : option string) : Error :=
  FlagParseError
    ("Invalid value " +:+ Str.quoted (ToString val)
       +:+ " for boolean flag " +:+ Str.quoted key
       +:+ ". Expected true or false")
    key val.

(** The pair carries the long name of a schema entry and a value of that
    entry's declared type. *)
Definition typed_by (schemas : list FlagSchema) (p : FlagPair) : Prop :=
  ∃ s, s ∈ schemas ∧ long s = p.1 ∧ typeof p.2 = valueType s.

(** * Properties *)

#[local] Arguments Ascii.eqb : simpl never.
#[local] Arguments is_word : simpl never.
#[local] Arguments is_digit : simpl never.
#[local] Arguments is_dot : simpl never.
#[local] Arguments is_white_space : simpl never.

(** ** The exception monad and the two loops *)

Section Loops.
Context {A B S : Type}.

Lemma mapM_app (f : A → result B) (xs ys : list A) :
  mapM f (xs ++ ys) =
    let* a := mapM f xs in
    let* b := mapM f ys in
    Ok (a ++ b).
Proof.
  induction xs as [|x xs IH]; simpl.
  - destruct (mapM f ys); reflexivity.
  - destruct (f x) as [y|e]; simpl; [|reflexivity].
    rewrite IH. destruct (mapM f xs); simpl; [|reflexivity].
    destruct (mapM f ys); reflexivity.
Qed.

Lemma forEach_app (f : S → A → result S) (st : S) (xs ys : list A) :
  forEach f st (xs ++ ys) =
    let* st' := forEach f st xs in
    forEach f st' ys.
Proof.
  revert st. induction xs as [|x xs IH]; intros st; simpl; [reflexivity|].
  destruct (f st x); simpl; [apply IH | reflexivity].
Qed.

End Loops.

(** ** Strings and character classes *)

Lemma startsWith_dash (c : ascii) (t : string) :
  Str.startsWith (String c t) "-" = Ascii.eqb c "-".
Proof.
  simpl. rewrite Ascii.eqb_sym. destruct (Ascii.eqb c "-"); reflexivity.
Qed.

Lemma append_cons (c : ascii) (t r : string) : String c t +:+ r = String c (t +:+ r).
Proof. reflexivity. Qed.

Lemma append_nil (r : string) : EmptyString +:+ r = r.
Proof. reflexivity. Qed.

Lemma eqb_dash_not_word (c : ascii) : Ascii.eqb c "-" = true → is_word c = false.
Proof. intros H. apply Ascii.eqb_eq in H. subst. reflexivity. Qed.

Lemma takeWhile_app_stop (p : ascii → bool) (s rest : string) :
  Str.all p s = true →
  Str.takeWhile p rest = EmptyString →
  Str.takeWhile p (s +:+ rest) = s ∧ Str.dropWhile p (s +:+ rest) = Str.dropWhile p rest.
Proof.
  intros Hs Hrest. induction s as [|c t IH].
  - rewrite append_nil. split; [exact Hrest | reflexivity].
  - simpl in Hs. apply andb_prop in Hs as [Hc Ht].
    rewrite append_cons. simpl. rewrite Hc.
    destruct (IH Ht) as [-> ->]. split; reflexivity.
Qed.

Lemma takeWhile_id (p : ascii → bool) (s : string) :
  Str.all p s = true → Str.takeWhile p s = s.
Proof.
  induction s as [|c t IH]; simpl; [reflexivity|].
  intros H. apply andb_prop in H as [-> Ht]. rewrite IH; auto.
Qed.

(** ** What [FLAG_REGEX] matches *)

Lemma match_key_val_None (s : string) : match_key_val s = None ↔ head_is_word s = false.
Proof.
  unfold match_key_val. destruct s as [|c t]; simpl; [tauto|].
  destruct (is_word c); simpl.
  - split; [|discriminate]. destruct (Str.dropWhile is_word t) as [|d r]; [discriminate|].
    destruct (Ascii.eqb d "="); discriminate.
  - tauto.
Qed.

Lemma match_here_None (s : string) :
  match_here s = None ↔
    match s with
    | String c t =>
        Ascii.eqb c "-" = false ∨
        (head_is_word t = false ∧
         match t with
         | String d u => Ascii.eqb d "-" = false ∨ head_is_word u = false
         | EmptyString => True
         end)
    | EmptyString => True
    end.
Proof.
  destruct s as [|c t]; simpl; [tauto|].
  destruct (Ascii.eqb c "-"); [|intuition congruence].
  destruct t as [|d u].
  - simpl. intuition congruence.
  - destruct (Ascii.eqb d "-") eqn:Hd.
    + destruct (match_key_val u) eqn:Hu.
      * split; [discriminate|]. intros [[=]|[_ [[=]|Hw]]].
        apply match_key_val_None in Hw. congruence.
      * rewrite match_key_val_None. apply match_key_val_None in Hu.
        split; [|intuition discriminate]. intros H. right. split; [exact H | right; exact Hu].
    + rewrite match_key_val_None. intuition congruence.
Qed.

(** No match anywhere in the token: no dash is directly followed by a word
    character. *)
Lemma FLAG_REGEX_None_iff (s : string) : FLAG_REGEX s = None ↔ dash_then_word s = false.
Proof.
  induction s as [|c t IH].
  - simpl. tauto.
  - cbn [FLAG_REGEX dash_then_word].
    destruct (match_here (String c t)) as [m|] eqn:Hm.
    + split; [discriminate|]. intros H. exfalso.
      apply orb_false_elim in H as [H1 H2].
      assert (match_here (String c t) = None) as Hn; [|congruence].
      apply match_here_None. destruct (Ascii.eqb c "-") eqn:Hc; [right | left; reflexivity].
      simpl in H1. split; [exact H1|].
      destruct t as [|d u]; [exact I|].
      destruct (Ascii.eqb d "-") eqn:Hd; [right | left; reflexivity].
      simpl in H2. rewrite Hd in H2. simpl in H2.
      apply orb_false_elim in H2 as [H2 _]. exact H2.
    + rewrite IH. apply match_here_None in Hm.
      split.
      * intros ->. rewrite orb_false_r.
        destruct Hm as [->|[Hw _]]; [reflexivity|]. rewrite Hw. apply andb_false_r.
      * intros H. apply orb_false_elim in H as [_ H]. exact H.
Qed.

Lemma dropWhile_all (p : ascii → bool) (s : string) :
  Str.all p s = true → Str.dropWhile p s = EmptyString.
Proof.
  induction s as [|c t IH]; simpl; [reflexivity|].
  intros H. apply andb_prop in H as [-> Ht]. auto.
Qed.

Lemma match_key_val_word (w : string) :
  w ≠ EmptyString → Str.all is_word w = true → match_key_val w = Some (w, None).
Proof.
  intros Hne Hw. unfold match_key_val.
  rewrite (takeWhile_id _ _ Hw), (dropWhile_all _ _ Hw).
  destruct w; [congruence | reflexivity].
Qed.

Lemma match_here_word (w : string) :
  w ≠ EmptyString → Str.all is_word w = true →
  match_here (String "-" w) = Some (w, None).
Proof.
  intros Hne Hw. unfold match_here.
  rewrite Ascii.eqb_refl, (match_key_val_word w Hne Hw).
  destruct w as [|c t]; [congruence|].
  simpl in Hw. apply andb_prop in Hw as [Hc _].
  destruct (Ascii.eqb c "-") eqn:Hd; [|reflexivity].
  apply eqb_dash_not_word in Hd. congruence.
Qed.

Lemma FLAG_REGEX_here (s : string) (m : string * option string) :
  match_here s = Some m → FLAG_REGEX s = Some m.
Proof. intros H. destruct s; cbn [FLAG_REGEX]; rewrite H; reflexivity. Qed.

(** The search skips a prefix without a dash. *)
Lemma FLAG_REGEX_skip (pre suf : string) :
  dash_free pre = true → FLAG_REGEX (pre +:+ suf) = FLAG_REGEX suf.
Proof.
  unfold dash_free. induction pre as [|c t IH]; [reflexivity|].
  cbn [Str.all]. intros H. apply andb_prop in H as [Hc Ht].
  rewrite append_cons. cbn [FLAG_REGEX match_here].
  apply negb_true_iff in Hc. rewrite Hc. auto.
Qed.

(** ** What the usual token shapes capture

    The key and the value that [FLAG_REGEX] captures in the usual token
    shapes: the key when it is a word, and the value up to its first line
    terminator.  The theorems on schema mode go from the token to what is
    captured in it through these lemmas. *)

Lemma long_value_token_captures (k v : string) :
  k ≠ EmptyString → Str.all is_word k = true →
  Str.startsWith ("--" +:+ k +:+ "=" +:+ v) "--" = true ∧
  FLAG_REGEX ("--" +:+ k +:+ "=" +:+ v) = Some (k, Some (Str.takeWhile is_dot v)).
Proof.
  intros Hne Hk. split; [reflexivity|].
  apply FLAG_REGEX_here.
  change ("--" +:+ k +:+ "=" +:+ v) with (String "-" (String "-" (k +:+ String "=" v))).
  unfold match_here. rewrite Ascii.eqb_refl.
  assert (match_key_val (k +:+ String "=" v) = Some (k, Some (Str.takeWhile is_dot v))) as ->;
    [|reflexivity].
  unfold match_key_val.
  destruct (takeWhile_app_stop is_word k (String "=" v) Hk eq_refl) as [-> ->].
  destruct k; [congruence | reflexivity].
Qed.

Lemma long_value_token_line_free (k v : string) :
  k ≠ EmptyString → Str.all is_word k = true → Str.all is_dot v = true →
  FLAG_REGEX ("--" +:+ k +:+ "=" +:+ v) = Some (k, Some v).
Proof.
  intros Hne Hk Hv.
  destruct (long_value_token_captures k v Hne Hk) as [_ ->].
  rewrite (takeWhile_id _ _ Hv). reflexivity.
Qed.


Lemma short_token_captures (k : string) :
  k ≠ EmptyString → Str.all is_word k = true →
  Str.startsWith ("-" +:+ k) "--" = false ∧ FLAG_REGEX ("-" +:+ k) = Some (k, None).
Proof.
  intros Hne Hk. change ("-" +:+ k) with (String "-" k). split.
  - destruct k as [|c t]; [congruence|].
    simpl in Hk. apply andb_prop in Hk as [Hc _].
    cbn [Str.startsWith]. rewrite Ascii.eqb_refl, Ascii.eqb_sym.
    destruct (Ascii.eqb c "-") eqn:Hd; [|reflexivity].
    apply eqb_dash_not_word in Hd. congruence.
  - apply FLAG_REGEX_here, match_here_word; assumption.
Qed.

(** ** Dropping a token *)

Lemma flat_defined_app (a b : list (list (option FlagPair))) :
  parsedFlags (a ++ b) = parsedFlags a ++ parsedFlags b.
Proof. unfold parsedFlags. rewrite concat_app. apply omap_app. Qed.

Lemma flat_defined_drop (a b : list (list (option FlagPair))) :
  parsedFlags (a ++ [None] :: b) = parsedFlags (a ++ b).
Proof. rewrite !flat_defined_app. reflexivity. Qed.

Lemma filter_positionals_app (a b : list string) :
  filter_positionals (a ++ b) = filter_positionals a ++ filter_positionals b.
Proof. apply List.filter_app. Qed.

Lemma flagParseFn_unmatched (schema : option (list FlagSchema))
    (fn : string → result (list (option FlagPair))) (arg : string) :
  flagParseFn schema = Ok fn → FLAG_REGEX arg = None → fn arg = Ok [None].
Proof.
  intros Hfn Hno. destruct schema as [schema|]; simpl in Hfn.
  - destruct (validateSchema schema); simpl in Hfn; [|discriminate].
    injection Hfn as <-. unfold parseFlagWithShema. rewrite Hno. reflexivity.
  - injection Hfn as <-. unfold parseFlagNoSchema. rewrite Hno. reflexivity.
Qed.

(** ** [parseInt] on digits *)

Lemma digit_not_white_space (c : ascii) : is_digit c = true → is_white_space c = false.
Proof. destruct c as [[] [] [] [] [] [] [] []]; vm_compute; congruence. Qed.

Lemma digit_not_sign (c : ascii) :
  is_digit c = true → Ascii.eqb c "-" = false ∧ Ascii.eqb c "+" = false.
Proof. destruct c as [[] [] [] [] [] [] [] []]; vm_compute; intuition congruence. Qed.

Lemma mathInt_prefix (ds rest : string) (acc : Z) :
  Str.all is_digit ds = true →
  Str.takeWhile is_digit rest = EmptyString →
  mathInt acc (ds +:+ rest) = acc * 10 ^ Z.of_nat (String.length ds) + decimal ds.
Proof.
  intros Hds Hrest. revert acc. induction ds as [|c t IH]; intros acc.
  - rewrite append_nil. simpl. destruct rest as [|d r]; simpl in *; [lia|].
    destruct (is_digit d); [discriminate | lia].
  - simpl in Hds. apply andb_prop in Hds as [Hc Ht].
    change (String c t +:+ rest) with (String c (t +:+ rest)).
    change (String.length (String c t)) with (S (String.length t)).
    cbn [mathInt decimal]. rewrite Hc, (IH Ht).
    rewrite Nat2Z.inj_succ, Z.pow_succ_r by lia. ring.
Qed.

(** [parseInt] reads the longest run of leading digits, whatever follows. *)
Lemma parseInt_digit_prefix (ds rest : string) :
  ds ≠ EmptyString →
  Str.all is_digit ds = true →
  Str.takeWhile is_digit rest = EmptyString →
  parseInt (Some (ds +:+ rest)) = Some (nearest_double false (decimal ds)).
Proof.
  intros Hne Hds Hrest. destruct ds as [|c t]; [congruence|].
  pose proof (mathInt_prefix (String c t) rest 0 Hds Hrest) as Hread.
  simpl in Hds. apply andb_prop in Hds as [Hc Ht].
  change (String c t +:+ rest) with (String c (t +:+ rest)) in *.
  unfold parseInt, ToString. cbn [Str.dropWhile].
  rewrite (digit_not_white_space c Hc).
  destruct (digit_not_sign c Hc) as [-> ->]. rewrite Hc.
  rewrite Hread. repeat (f_equal; try lia).
Qed.

Lemma append_empty_r (s : string) : s +:+ EmptyString = s.
Proof.
  induction s as [|c t IH]; [reflexivity|].
  rewrite append_cons. f_equal. exact IH.
Qed.

Lemma parseInt_digits (ds : string) :
  ds ≠ EmptyString → Str.all is_digit ds = true →
  parseInt (Some ds) = Some (nearest_double false (decimal ds)).
Proof.
  intros Hne Hds. rewrite <- (append_empty_r ds) at 1.
  apply parseInt_digit_prefix; auto.
Qed.

(** Below 2^53 every integer is a double: nothing is rounded. *)
Lemma nearest_double_exact (negative : bool) (n : Z) :
  n < 2 ^ 53 → nearest_double negative n = Integer negative n.
Proof.
  intros Hn. unfold nearest_double.
  destruct (Z.ltb_spec n (2 ^ 53)) as [_|Hge]; [reflexivity | lia].
Qed.

(** Rounding keeps the sign, and the magnitude stays a natural number. *)
Lemma nearest_double_sign (negative : bool) (n : Z) :
  0 ≤ n →
  nearest_double negative n = Infinity negative ∨
  ∃ m, 0 ≤ m ∧ nearest_double negative n = Integer negative m.
Proof.
  intros Hn. unfold nearest_double.
  destruct (n <? 2 ^ 53); [right; eauto|].
  cbv zeta.
  match goal with |- context [2 ^ 1024 <=? ?m] =>
    destruct (2 ^ 1024 <=? m); [left; reflexivity | right; exists m] end.
  split; [|reflexivity].
  apply Z.shiftl_nonneg.
  pose proof (proj2 (Z.shiftr_nonneg n (Z.log2 n - 52)) Hn).
  destruct (_ || _); lia.
Qed.

(** Beyond 2^53 the result is a double and a nearest one: a multiple of
    the spacing 2^e of the doubles around [n], with a significand of at
    most 53 bits, at a distance of at most half that spacing from [n]. *)
Lemma nearest_double_nearest (negative : bool) (n m : Z) :
  2 ^ 53 ≤ n →
  nearest_double negative n = Integer negative m →
  ∃ q, m = q * 2 ^ (Z.log2 n - 52) ∧ 2 ^ 52 ≤ q ≤ 2 ^ 53 ∧
       2 * Z.abs (m - n) ≤ 2 ^ (Z.log2 n - 52).
Proof.
  intros Hn. unfold nearest_double.
  destruct (Z.ltb_spec n (2 ^ 53)) as [Hlt|_]; [lia|]. cbv zeta.
  assert (0 < n) as Hpos by lia.
  destruct (Z.log2_spec n Hpos) as [Hlo Hhi].
  assert (53 ≤ Z.log2 n) as Hlog by (apply Z.log2_le_pow2; lia).
  set (shift := Z.log2 n - 52) in *.
  assert (0 < shift) as Hshift by lia.
  rewrite Z.shiftr_div_pow2 by lia.
  set (q := n / 2 ^ shift).
  rewrite !Z.shiftl_mul_pow2 by lia.
  assert (0 < 2 ^ shift) as Hpow by (apply Z.pow_pos_nonneg; lia).
  assert (2 ^ shift = 2 * 2 ^ (shift - 1)) as Hhalf.
  { rewrite <- Z.pow_succ_r by lia. f_equal; lia. }
  assert (Z.log2 n = 52 + shift) as Hsum by lia.
  rewrite Hsum in Hlo. rewrite Z.pow_add_r in Hlo by lia.
  replace (Z.succ (Z.log2 n)) with (53 + shift) in Hhi by lia.
  rewrite Z.pow_add_r in Hhi by lia.
  pose proof (Z.div_mod n (2 ^ shift) ltac:(lia)) as Hdiv.
  pose proof (Z.mod_pos_bound n (2 ^ shift) Hpow) as Hmod.
  fold q in Hdiv.
  assert (2 ^ 52 ≤ q < 2 ^ 53) as Hq by (split; nia).
  set (r := n - q * 2 ^ shift). assert (r = n mod 2 ^ shift) as Hr by (unfold r; lia).
  destruct (Z.ltb_spec (2 ^ (shift - 1)) r) as [Hup|Hdown]; cbn [orb].
  - destruct (2 ^ 1024 <=? _); [discriminate|]. intros [= <-].
    exists (q + 1). split; [reflexivity|]. split; [lia|]. nia.
  - destruct (Z.eqb_spec r (2 ^ (shift - 1))) as [Heq|Hne]; cbn [andb].
    + destruct (Z.odd q).
      * destruct (2 ^ 1024 <=? _); [discriminate|]. intros [= <-].
        exists (q + 1). split; [reflexivity|]. split; [lia|]. nia.
      * destruct (2 ^ 1024 <=? _); [discriminate|]. intros [= <-].
        exists q. split; [reflexivity|]. split; [lia|]. nia.
    + destruct (2 ^ 1024 <=? _); [discriminate|]. intros [= <-].
      exists q. split; [reflexivity|]. split; [lia|]. nia.
Qed.

(** The rounding at work: ties go to the even significand, the largest
    double is 2^1024 - 2^971, and what rounds to 2^1024 is an infinity.  A
    negative zero keeps its sign. *)
Example nearest_double_cases :
  nearest_double false (2 ^ 53 + 1) = Integer false (2 ^ 53) ∧
  nearest_double false (2 ^ 53 + 2) = Integer false (2 ^ 53 + 2) ∧
  nearest_double false (2 ^ 53 + 3) = Integer false (2 ^ 53 + 4) ∧
  nearest_double true (2 ^ 54 + 2) = Integer true (2 ^ 54) ∧
  nearest_double false (2 ^ 1024 - 2 ^ 970 - 1) = Integer false (2 ^ 1024 - 2 ^ 971) ∧
  nearest_double false (2 ^ 1024 - 2 ^ 970) = Infinity false ∧
  nearest_double true (10 ^ 400) = Infinity true ∧
  parseInt (Some "-0") = Some (Integer true 0) ∧
  parseInt (Some "9007199254740993") = Some (Integer false 9007199254740992).
Proof. repeat split; vm_compute; reflexivity. Qed.

Lemma NUMBER_REGEX_spec (val : option string) :
  NUMBER_REGEX val = true ↔
    ∃ ds, val = Some ds ∧ ds ≠ EmptyString ∧ Str.all is_digit ds = true.
Proof.
  unfold NUMBER_REGEX. split.
  - destruct val as [ds|]; [|vm_compute; discriminate].
    simpl. intros H. apply andb_prop in H as [H1 H2].
    exists ds. repeat split; [|exact H2]. intros ->. discriminate.
  - intros (ds & -> & Hne & Hds). simpl. rewrite Hds.
    destruct ds; [congruence | reflexivity].
Qed.

(** ** No-schema mode *)

(** C2, the claim as stated fails: for ['--flag='] the captured value is
    the empty string and the pair carries that empty string, not [true];
    the token is not treated like the value-less ['--flag'].  And the number
    of a digit value is a double, not every integer: the digits
    9007199254740993 (2^53 + 1) give 9007199254740992. *)
Lemma C2_empty_value_counterexample :
  FLAG_REGEX "--flag=" = Some ("flag", Some EmptyString) ∧
  parseFlagNoSchema "--flag=" = [Some ("flag", VString EmptyString)] ∧
  parseFlagNoSchema "--flag=" ≠ [Some ("flag", VBoolean true)] ∧
  parseFlagNoSchema "--flag" = [Some ("flag", VBoolean true)] ∧
  tiniargs ["--flag="] None
    = Ok {| positionals := []; flags := {[ "flag" := VString EmptyString ]} |} ∧
  parseFlagNoSchema "--n=9007199254740993"
    = [Some ("n", VNumber (Integer false 9007199254740992))].
Proof. repeat split; try (vm_compute; reflexivity). vm_compute. discriminate. Qed.

(** C2, amended: in no-schema mode a flag token without a value yields
    [(key, true)]; a flag token whose captured value is the empty string
    yields [(key, "")], the empty string itself; and a flag token whose
    captured value is a non-empty string of digits yields the key with the
    double nearest to the integer those digits denote, which is that integer
    itself when it is below 2^53. *)
Theorem C2_no_schema_values
    (arg key : string) (val : option string)
    (Hmatch : FLAG_REGEX arg = Some (key, val)) :
  (val = None → parseFlagNoSchema arg = [Some (key, VBoolean true)]) ∧
  (val = Some EmptyString → parseFlagNoSchema arg = [Some (key, VString EmptyString)]) ∧
  (∀ ds, val = Some ds → ds ≠ EmptyString → Str.all is_digit ds = true →
         parseFlagNoSchema arg = [Some (key, VNumber (nearest_double false (decimal ds)))] ∧
         (decimal ds < 2 ^ 53 →
          parseFlagNoSchema arg = [Some (key, VNumber (Integer false (decimal ds)))])).
Proof.
  unfold parseFlagNoSchema. rewrite Hmatch. split; [|split].
  - intros ->. reflexivity.
  - intros ->. reflexivity.
  - intros ds -> Hne Hds.
    rewrite (parseInt_digits ds Hne Hds).
    replace (NUMBER_REGEX (Some ds)) with true
      by (symmetry; apply NUMBER_REGEX_spec; eauto).
    split; [reflexivity|].
    intros Hsmall. rewrite (nearest_double_exact false _ Hsmall). reflexivity.
Qed.

Lemma C2_no_schema_values_witness :
  parseFlagNoSchema "--flag" = [Some ("flag", VBoolean true)] ∧
  parseFlagNoSchema "--flag=" = [Some ("flag", VString EmptyString)] ∧
  parseFlagNoSchema "--something_else=128"
    = [Some ("something_else", VNumber (Integer false 128))].
Proof.
  split; [|split].
  - apply (C2_no_schema_values "--flag" "flag" None); reflexivity.
  - apply (C2_no_schema_values "--flag=" "flag" (Some EmptyString)); reflexivity.
  - refine (proj2 (proj2 (proj2 (C2_no_schema_values "--something_else=128"
                                   "something_else" (Some "128") eq_refl))
                     "128" eq_refl _ eq_refl) _).
    + discriminate.
    + vm_compute. reflexivity.
Defined.

(** ** The merge of the emitted pairs *)

Lemma get_undefined (flags : gmap string FlagValue) (key : string) :
  get flags key = JUndefined ↔ flags !! key = None ∧ key ∉ Object_prototype.
Proof.
  unfold get. destruct (flags !! key) as [v|].
  - split; [discriminate | intros [[=] _]].
  - case_bool_decide; split; try discriminate; intuition.
Qed.

Lemma not_inherited (key : string) :
  bool_decide (key ∈ Object_prototype) = false → key ∉ Object_prototype.
Proof. apply bool_decide_eq_false. Qed.

Lemma get_stored (flags : gmap string FlagValue) (key : string) (v : FlagValue) :
  flags !! key = Some v → get flags key = JFlag v.
Proof. unfold get. intros ->. reflexivity. Qed.

Lemma merge_step_Ok (flags flags' : gmap string FlagValue) (key : string) (val : FlagValue) :
  merge_step flags (key, val) = Ok flags' ↔
    get flags key = JUndefined ∧ flags' = <[key := val]> flags.
Proof.
  unfold merge_step. destruct (get flags key); split.
  - intros [= <-]. auto.
  - intros [_ ->]. reflexivity.
  - discriminate.
  - intros [[=] _].
  - discriminate.
  - intros [[=] _].
Qed.

(** A stored pair stays as it is for the rest of the merge. *)
Lemma merge_keeps (pairs : list FlagPair) (flags merged : gmap string FlagValue)
    (key : string) (v : FlagValue) :
  forEach merge_step flags pairs = Ok merged →
  flags !! key = Some v →
  merged !! key = Some v.
Proof.
  revert flags. induction pairs as [|[k w] pairs IH]; intros flags.
  - simpl. intros [= <-]. auto.
  - cbn [forEach].
    destruct (merge_step flags (k, w)) as [flags'|e] eqn:Hstep; simpl; [|discriminate].
    apply merge_step_Ok in Hstep as [Hundef ->].
    apply get_undefined in Hundef as [Hnone _].
    intros Hrest Hkey. apply (IH _ Hrest).
    rewrite lookup_insert_ne; [exact Hkey | congruence].
Qed.

(** The pair that the merge has just stored is found afterwards. *)
Lemma merge_stores (pre mid : list FlagPair) (merged : gmap string FlagValue)
    (key : string) (v : FlagValue) :
  forEach merge_step ∅ (pre ++ (key, v) :: mid) = Ok merged →
  merged !! key = Some v.
Proof.
  rewrite forEach_app.
  destruct (forEach merge_step ∅ pre) as [m1|e]; [|discriminate].
  cbn [bind forEach].
  destruct (merge_step m1 (key, v)) as [m2|e] eqn:Hstep; simpl; [|discriminate].
  apply merge_step_Ok in Hstep as [_ ->].
  intros Hrest. apply (merge_keeps _ _ _ _ _ Hrest). apply lookup_insert_eq.
Qed.

(** C3, the claim as stated fails: every token is parsed before the merge
    starts, so the unknown flag of the third token is reported although the
    first two tokens already collide. *)
Lemma C3_later_token_error_counterexample :
  let schema :=
    [ {| long := "testflag"; short := Some "l"; required := None;
         defaultValue := None; valueType := "boolean" |} ] in
  tiniargs ["--testflag"; "--testflag=false"] (Some schema)
    = Throw (DuplicateFlagError "testflag" (JFlag (VBoolean true)) (VBoolean false)) ∧
  tiniargs ["--testflag"; "--testflag=false"; "--unknown"] (Some schema)
    = Throw (UnknownFlagError "unknown" false).
Proof. split; vm_compute; reflexivity. Qed.

(** C3, amended: all tokens are parsed first, and an exception of any
    token, also of one after the colliding ones, is what [tiniargs] raises.
    When every token has parsed and the merge of the emitted pairs, in
    emission order, meets a key for the second time, [tiniargs] fails with
    the [DuplicateFlagError] of that key, the value stored first and the
    second value, both as typed values, whatever pairs follow. *)
Theorem C3_duplicate_flag_after_parsing
    (args : list string) (schema : option (list FlagSchema))
    (fn : string → result (list (option FlagPair)))
    (Hfn : flagParseFn schema = Ok fn) :
  (∀ e, mapM fn args = Throw e → tiniargs args schema = Throw e) ∧
  (∀ parsed pre key first mid second post merged,
     mapM fn args = Ok parsed →
     parsedFlags parsed = pre ++ (key, first) :: mid ++ (key, second) :: post →
     forEach merge_step ∅ (pre ++ (key, first) :: mid) = Ok merged →
     merged !! key = Some first ∧
     tiniargs args schema = Throw (DuplicateFlagError key (JFlag first) second)).
Proof.
  split.
  - intros e He. unfold tiniargs. rewrite Hfn. simpl. rewrite He. reflexivity.
  - intros parsed pre key first mid second post merged Hparsed Hpairs Hmerged.
    pose proof (merge_stores _ _ _ _ _ Hmerged) as Hfirst.
    split; [exact Hfirst|].
    unfold tiniargs. rewrite Hfn. simpl. rewrite Hparsed. simpl.
    rewrite Hpairs.
    replace (pre ++ (key, first) :: mid ++ (key, second) :: post)
      with ((pre ++ (key, first) :: mid) ++ (key, second) :: post)
      by (rewrite <- app_assoc; reflexivity).
    rewrite forEach_app, Hmerged. simpl.
    unfold merge_step. rewrite (get_stored _ _ _ Hfirst). reflexivity.
Qed.

Lemma C3_duplicate_flag_after_parsing_witness :
  tiniargs ["--t"; "-x"; "--t=false"; "--y"] None
    = Throw (DuplicateFlagError "t" (JFlag (VBoolean true)) (VString "false")).
Proof.
  refine (proj2 (proj2 (C3_duplicate_flag_after_parsing
                          ["--t"; "-x"; "--t=false"; "--y"] None
                          (λ arg, Ok (parseFlagNoSchema arg)) eq_refl)
                   [[Some ("t", VBoolean true)]; [Some ("x", VBoolean true)];
                    [Some ("t", VString "false")]; [Some ("y", VBoolean true)]]
                   [] "t" (VBoolean true) [("x", VBoolean true)] (VString "false")
                   [("y", VBoolean true)]
                   (<["x" := VBoolean true]> (<["t" := VBoolean true]> ∅))
                   _ _ _)); vm_compute; reflexivity.
Defined.

(** ** Schema validation *)

Lemma validate_step_spec (earlier : list FlagSchema) (s : FlagSchema)
    (longFlags shortFlags : gset string) :
  (∀ x, x ∈ longFlags ↔ x ∈ long <$> earlier) →
  (∀ x, x ∈ shortFlags ↔ x ∈ omap short earlier) →
  validate_step (longFlags, shortFlags) s =
    match spec_entry_failure earlier s with
    | Some e => Throw e
    | None =>
        Ok ({[long s]} ∪ longFlags,
            match short s with
            | Some sh => {[sh]} ∪ shortFlags
            | None => shortFlags
            end)
    end.
Proof.
  intros HL HS.
  unfold validate_step, spec_entry_failure, spec_checks.
  rewrite (bool_decide_ext _ _ (HL (long s))).
  unfold err_long_too_short, err_duplicate_long, err_short_length,
    err_duplicate_short, err_default_type, err_value_type.
  destruct (Nat.leb (String.length (long s)) 1); [reflexivity|].
  destruct (bool_decide (long s ∈ long <$> earlier)); [reflexivity|].
  destruct (short s) as [sh|].
  - rewrite (bool_decide_ext _ _ (HS sh)).
    destruct (Nat.eqb (String.length sh) 1); [|reflexivity].
    destruct (bool_decide (sh ∈ omap short earlier)); [reflexivity|].
    destruct (defaultValue s) as [d|].
    + destruct (bool_decide (typeof d = valueType s)); [|reflexivity].
      destruct (bool_decide (valueType s ∈ ["string"; "number"; "boolean"])); reflexivity.
    + destruct (bool_decide (valueType s ∈ ["string"; "number"; "boolean"])); reflexivity.
  - destruct (defaultValue s) as [d|].
    + destruct (bool_decide (typeof d = valueType s)); [|reflexivity].
      destruct (bool_decide (valueType s ∈ ["string"; "number"; "boolean"])); reflexivity.
    + destruct (bool_decide (valueType s ∈ ["string"; "number"; "boolean"])); reflexivity.
Qed.

Lemma validate_loop_spec (rest earlier : list FlagSchema) (longFlags shortFlags : gset string) :
  (∀ x, x ∈ longFlags ↔ x ∈ long <$> earlier) →
  (∀ x, x ∈ shortFlags ↔ x ∈ omap short earlier) →
  match spec_first_violation earlier rest with
  | Some e => forEach validate_step (longFlags, shortFlags) rest = Throw e
  | None => ∃ seen, forEach validate_step (longFlags, shortFlags) rest = Ok seen
  end.
Proof.
  revert earlier longFlags shortFlags.
  induction rest as [|s rest IH]; intros earlier longFlags shortFlags HL HS.
  - simpl. eauto.
  - cbn [forEach spec_first_violation].
    rewrite (validate_step_spec earlier s longFlags shortFlags HL HS).
    destruct (spec_entry_failure earlier s) as [e|]; [reflexivity|].
    cbn [bind]. apply IH.
    + intros x. rewrite fmap_app, elem_of_app, elem_of_union, elem_of_singleton, HL.
      cbn [fmap list_fmap]. rewrite list_elem_of_singleton. tauto.
    + intros x. rewrite omap_app, elem_of_app. cbn [omap list_omap].
      destruct (short s) as [sh|].
      * rewrite elem_of_union, elem_of_singleton, list_elem_of_singleton, HS. tauto.
      * rewrite HS. rewrite elem_of_nil. tauto.
Qed.

(** [validateSchema] computes the first violation of the reference list of
    checks, and returns its argument when there is none. *)
Lemma validateSchema_spec (schema : list FlagSchema) :
  validateSchema schema =
    match spec_first_violation [] schema with
    | Some e => Throw e
    | None => Ok schema
    end.
Proof.
  unfold validateSchema.
  pose proof (validate_loop_spec schema [] ∅ ∅) as H.
  destruct (spec_first_violation [] schema) as [e|].
  - rewrite H; [reflexivity| |]; intros x; cbn; rewrite elem_of_nil; set_solver.
  - destruct H as [seen ->]; [| |reflexivity]; intros x; cbn; rewrite elem_of_nil; set_solver.
Qed.

Lemma spec_first_violation_app (earlier p rest : list FlagSchema) :
  spec_first_violation earlier (p ++ rest) =
    match spec_first_violation earlier p with
    | Some e => Some e
    | None => spec_first_violation (earlier ++ p) rest
    end.
Proof.
  revert earlier. induction p as [|s p IH]; intros earlier.
  - simpl. rewrite app_nil_r. reflexivity.
  - cbn [app spec_first_violation].
    destruct (spec_entry_failure earlier s); [reflexivity|].
    rewrite IH, <- app_assoc. reflexivity.
Qed.

Lemma violates_false (earlier : list FlagSchema) (s : FlagSchema) :
  violates earlier s = false ↔ spec_entry_failure earlier s = None.
Proof.
  unfold violates, spec_entry_failure.
  induction (spec_checks earlier s) as [|[c e] checks IH]; simpl; [tauto|].
  destruct c; simpl; [split; discriminate | exact IH].
Qed.

Lemma spec_entry_failure_None (earlier : list FlagSchema) (s : FlagSchema) :
  spec_entry_failure earlier s = None ↔
    entry_ok s = true ∧
    (long s ∉ (long <$> earlier)) ∧
    (∀ sh, short s = Some sh → sh ∉ omap short earlier).
Proof.
  unfold spec_entry_failure, spec_checks, entry_ok.
  destruct (Nat.leb (String.length (long s)) 1); simpl;
    [split; [discriminate | intros [[=] _]]|].
  case_bool_decide as Hlong; simpl;
    [split; [discriminate | intros (_ & Hn & _); contradiction]|].
  destruct (short s) as [sh|].
  - destruct (Nat.eqb (String.length sh) 1); simpl;
      [|split; [discriminate | intros [[=] _]]].
    case_bool_decide as Hshort; simpl;
      [split; [discriminate | intros (_ & _ & Hn); exfalso; exact (Hn sh eq_refl Hshort)]|].
    destruct (defaultValue s) as [d|].
    + destruct (bool_decide (typeof d = valueType s)); simpl;
        [|split; [discriminate | intros [[=] _]]].
      destruct (bool_decide (valueType s ∈ ["string"; "number"; "boolean"])); simpl.
      * split; [|reflexivity]. intros _. repeat split; [exact Hlong|].
        intros ? [= <-]. exact Hshort.
      * split; [discriminate | intros [[=] _]].
    + destruct (bool_decide (valueType s ∈ ["string"; "number"; "boolean"])); simpl.
      * split; [|reflexivity]. intros _. repeat split; [exact Hlong|].
        intros ? [= <-]. exact Hshort.
      * split; [discriminate | intros [[=] _]].
  - destruct (defaultValue s) as [d|].
    + destruct (bool_decide (typeof d = valueType s)); simpl;
        [|split; [discriminate | intros [[=] _]]].
      destruct (bool_decide (valueType s ∈ ["string"; "number"; "boolean"])); simpl.
      * split; [|reflexivity]. intros _. repeat split; [exact Hlong | discriminate].
      * split; [discriminate | intros [[=] _]].
    + destruct (bool_decide (valueType s ∈ ["string"; "number"; "boolean"])); simpl.
      * split; [|reflexivity]. intros _. repeat split; [exact Hlong | discriminate].
      * split; [discriminate | intros [[=] _]].
Qed.

Lemma spec_first_violation_None (rest earlier : list FlagSchema) :
  spec_first_violation earlier rest = None ↔
    Forall (λ s, entry_ok s = true) rest ∧
    NoDup (long <$> rest) ∧
    (∀ x, x ∈ long <$> rest → x ∉ (long <$> earlier)) ∧
    NoDup (omap short rest) ∧
    (∀ x, x ∈ omap short rest → x ∉ omap short earlier).
Proof.
  revert earlier. induction rest as [|s rest IH]; intros earlier.
  - simpl. split; [|reflexivity]. intros _.
    repeat split; try constructor; intros x Hx; inversion Hx.
  - cbn [spec_first_violation].
    destruct (spec_entry_failure earlier s) as [e|] eqn:Hs.
    + split; [discriminate|]. intros (Hok & Hnd & Hl & Hnds & Hsh). exfalso.
      assert (spec_entry_failure earlier s = None) as Hnone; [|congruence].
      apply spec_entry_failure_None. inversion Hok; subst. repeat split.
      * assumption.
      * apply Hl. cbn. left.
      * intros sh Hsome. apply Hsh. cbn. rewrite Hsome. left.
    + apply spec_entry_failure_None in Hs as (Hok & Hlong & Hshort).
      rewrite IH. clear IH.
      rewrite fmap_cons, NoDup_cons.
      setoid_rewrite fmap_app. setoid_rewrite omap_app.
      setoid_rewrite elem_of_app. cbn [fmap list_fmap omap list_omap].
      setoid_rewrite list_elem_of_singleton.
      split.
      * intros (HF & Hnd & Hl & Hnds & Hsh). repeat split.
        -- constructor; assumption.
        -- intros Hin. apply (Hl _ Hin). right. reflexivity.
        -- assumption.
        -- intros x Hx Hin. apply elem_of_cons in Hx as [->|Hx]; [contradiction|].
           apply (Hl _ Hx). left. exact Hin.
        -- destruct (short s) as [sh|]; [|exact Hnds].
           apply NoDup_cons. split; [|exact Hnds].
           intros Hin. apply (Hsh _ Hin). right. left.
        -- intros x Hx Hin. destruct (short s) as [sh|].
           ++ apply elem_of_cons in Hx as [->|Hx]; [exact (Hshort _ eq_refl Hin)|].
              apply (Hsh _ Hx). left. exact Hin.
           ++ apply (Hsh _ Hx). left. exact Hin.
      * intros (HF & [Hnin Hnd] & Hl & Hnds & Hsh). inversion HF; subst.
        repeat split.
        -- assumption.
        -- assumption.
        -- intros x Hx [Hin| ->]; [|contradiction].
           apply (Hl x); [right; exact Hx | exact Hin].
        -- destruct (short s) as [sh|]; [|exact Hnds].
           apply NoDup_cons in Hnds as [_ Hnds]. exact Hnds.
        -- intros x Hx [Hin|Hin].
           ++ apply (Hsh x); [|exact Hin].
              destruct (short s); [right|]; exact Hx.
           ++ destruct (short s) as [sh|]; [|inversion Hin].
              apply list_elem_of_singleton in Hin as ->.
              apply NoDup_cons in Hnds as [Hnin' _]. contradiction.
Qed.

Lemma well_formed_spec (schema : list FlagSchema) :
  spec_first_violation [] schema = None ↔ well_formed schema.
Proof.
  rewrite spec_first_violation_None. unfold well_formed. split.
  - intros (H1 & H2 & _ & H3 & _). auto.
  - intros (H1 & H2 & H3). repeat split; auto; intros x _ Hx; inversion Hx.
Qed.

Lemma well_formed_Permutation (schema schema' : list FlagSchema) :
  Permutation schema schema' → well_formed schema → well_formed schema'.
Proof.
  intros HP (H1 & H2 & H3). repeat split.
  - rewrite <- HP. exact H1.
  - rewrite <- HP. exact H2.
  - rewrite <- HP. exact H3.
Qed.

Lemma validateSchema_Ok (schema validated : list FlagSchema) :
  validateSchema schema = Ok validated ↔ validated = schema ∧ well_formed schema.
Proof.
  rewrite validateSchema_spec, <- well_formed_spec.
  destruct (spec_first_violation [] schema); split.
  - discriminate.
  - intros [_ [=]].
  - intros [= <-]. auto.
  - intros [-> _]. reflexivity.
Qed.

Lemma no_violation_prefix (pre : list FlagSchema) :
  (∀ p1 x p2, pre = p1 ++ x :: p2 → violates p1 x = false) →
  spec_first_violation [] pre = None.
Proof.
  induction pre as [|x pre IH] using rev_ind; intros Hpre; [reflexivity|].
  rewrite spec_first_violation_app, IH.
  - cbn [app spec_first_violation].
    rewrite (proj1 (violates_false pre x)); [reflexivity|].
    apply (Hpre pre x []). reflexivity.
  - intros p1 y p2 ->. apply (Hpre p1 y (p2 ++ [x])).
    rewrite <- app_assoc. reflexivity.
Qed.

(** No argument is parsed when the schema is rejected. *)
Lemma tiniargs_invalid_schema (args : list string) (schema : list FlagSchema) (e : Error) :
  validateSchema schema = Throw e → tiniargs args (Some schema) = Throw e.
Proof. intros H. unfold tiniargs, flagParseFn. rewrite H. reflexivity. Qed.

(** C4: [validateSchema] goes through the entries in input order and, for
    each, through the six checks in their fixed priority (long name longer
    than one character, long name not seen before, short name of length one
    when present, short name not seen before, default value of the declared
    type, value type among the three tags).  The first failing check of the
    first violating entry is the error; [tiniargs] then fails with it
    whatever the arguments are, so nothing is parsed before; and a schema
    without a violation is returned unchanged. *)
Theorem C4_validateSchema_first_failing_check (schema : list FlagSchema) :
  match spec_first_violation [] schema with
  | Some e =>
      validateSchema schema = Throw e ∧
      ∀ args, tiniargs args (Some schema) = Throw e
  | None => validateSchema schema = Ok schema
  end.
Proof.
  pose proof (validateSchema_spec schema) as H.
  destruct (spec_first_violation [] schema) as [e|]; [|exact H].
  split; [exact H|]. intros args. apply tiniargs_invalid_schema. exact H.
Qed.

(** C8: whether [validateSchema] succeeds does not depend on the order of
    the entries; when it fails the error is that of the first entry, in
    input order, that violates a rule; and validating a validated schema
    again returns it once more. *)
Theorem C8_validateSchema_order_and_idempotence
    (schema schema' : list FlagSchema) (Hperm : Permutation schema schema') :
  is_ok (validateSchema schema) = is_ok (validateSchema schema') ∧
  (∀ pre s post,
     schema = pre ++ s :: post →
     (∀ p1 x p2, pre = p1 ++ x :: p2 → violates p1 x = false) →
     violates pre s = true →
     ∃ e, spec_entry_failure pre s = Some e ∧ validateSchema schema = Throw e) ∧
  (∀ validated,
     validateSchema schema = Ok validated →
     validated = schema ∧ validateSchema validated = Ok validated).
Proof.
  repeat split.
  - destruct (validateSchema schema) as [v|e] eqn:H1;
      destruct (validateSchema schema') as [v'|e'] eqn:H2; try reflexivity; exfalso.
    + apply validateSchema_Ok in H1 as [_ Hwf].
      apply (well_formed_Permutation _ _ Hperm) in Hwf.
      assert (validateSchema schema' = Ok schema') as H; [|congruence].
      apply validateSchema_Ok. auto.
    + apply validateSchema_Ok in H2 as [_ Hwf].
      apply (well_formed_Permutation _ _ (Permutation_sym Hperm)) in Hwf.
      assert (validateSchema schema = Ok schema) as H; [|congruence].
      apply validateSchema_Ok. auto.
  - intros pre s post -> Hpre Hs.
    destruct (spec_entry_failure pre s) as [e|] eqn:He.
    2:{ apply violates_false in He. congruence. }
    exists e. split; [reflexivity|].
    rewrite validateSchema_spec, spec_first_violation_app.
    rewrite (no_violation_prefix pre Hpre).
    cbn [app spec_first_violation]. rewrite He. reflexivity.
  - apply validateSchema_Ok in H as [-> _]. reflexivity.
  - pose proof H as H'. apply validateSchema_Ok in H' as [-> _]. exact H.
Qed.

Lemma C8_validateSchema_order_and_idempotence_witness :
  is_ok (validateSchema [entry "fake" "f" "boolean"; entry "aaa" "a" "string"])
    = is_ok (validateSchema [entry "aaa" "a" "string"; entry "fake" "f" "boolean"]).
Proof.
  apply (C8_validateSchema_order_and_idempotence
           [entry "fake" "f" "boolean"; entry "aaa" "a" "string"]
           [entry "aaa" "a" "string"; entry "fake" "f" "boolean"]).
  apply perm_swap.
Defined.

(** ** Required entries and defaults *)

Lemma find_filter {A : Type} (p q : A → bool) (l : list A) :
  List.find p (List.filter q l) = List.find (λ x, q x && p x) l.
Proof.
  induction l as [|x l IH]; simpl; [reflexivity|].
  destruct (q x); simpl; [|exact IH].
  destruct (p x); [reflexivity | exact IH].
Qed.

Lemma required_loop (flags : gmap string FlagValue) (l : list FlagSchema) :
  forEach required_step flags l =
    match List.find (λ s, is_undefined (get flags (long s))) l with
    | Some s0 => Throw (MissingRequiredFlagError (long s0))
    | None => Ok flags
    end.
Proof.
  induction l as [|s l IH]; [reflexivity|].
  cbn [forEach List.find]. unfold required_step at 1.
  destruct (get flags (long s)); cbn [is_undefined bind]; [reflexivity | exact IH..].
Qed.

Lemma apply_schema_spec (schema : list FlagSchema) (flags : gmap string FlagValue) :
  apply_schema schema flags =
    match first_missing schema flags with
    | Some s0 => Throw (MissingRequiredFlagError (long s0))
    | None => Ok (foldl default_step flags (with_default schema))
    end.
Proof.
  unfold apply_schema, first_missing. rewrite required_loop, find_filter.
  destruct (List.find _ schema); reflexivity.
Qed.

(** [tiniargs] with a schema, once validation, parsing and merge have
    succeeded. *)
Lemma tiniargs_schema_phases (args : list string) (schema : list FlagSchema)
    (parsed : list (list (option FlagPair))) (merged : gmap string FlagValue) :
  validateSchema schema = Ok schema →
  mapM (parseFlagWithShema schema) args = Ok parsed →
  forEach merge_step ∅ (parsedFlags parsed) = Ok merged →
  tiniargs args (Some schema) =
    let* flags := apply_schema schema merged in
    Ok {| positionals := filter_positionals args; flags := flags |}.
Proof.
  intros Hv Hp Hm. unfold tiniargs, flagParseFn. rewrite Hv. cbn [bind].
  rewrite Hp. cbn [bind]. rewrite Hm. reflexivity.
Qed.

Lemma default_step_lookup (flags : gmap string FlagValue) (s : FlagSchema)
    (k : string) (v : FlagValue) :
  default_step flags s !! k = Some v →
  flags !! k = Some v ∨
  (get flags k = JUndefined ∧ long s = k ∧ defaultValue s = Some v).
Proof.
  unfold default_step.
  destruct (get flags (long s)) eqn:Hg; auto.
  destruct (defaultValue s) as [d|] eqn:Hd; auto.
  destruct (decide (long s = k)) as [<-|Hne].
  - rewrite lookup_insert_eq. intros [= <-]. right. auto.
  - rewrite lookup_insert_ne by exact Hne. auto.
Qed.

Lemma default_step_get (flags : gmap string FlagValue) (s : FlagSchema) (k : string) :
  get (default_step flags s) k = JUndefined → get flags k = JUndefined.
Proof.
  unfold default_step.
  destruct (get flags (long s)) eqn:Hg; auto.
  destruct (defaultValue s) as [d|]; auto.
  rewrite !get_undefined. intros [Hnone Hproto]. split; [|exact Hproto].
  destruct (decide (long s = k)) as [<-|Hne].
  - rewrite lookup_insert_eq in Hnone. discriminate.
  - rewrite lookup_insert_ne in Hnone by exact Hne. exact Hnone.
Qed.

(** A flag of the result is a merged flag or the default of an entry whose
    name the merged flags did not have. *)
Lemma defaults_only_fill (l : list FlagSchema) (flags : gmap string FlagValue)
    (k : string) (v : FlagValue) :
  foldl default_step flags l !! k = Some v →
  flags !! k = Some v ∨
  (get flags k = JUndefined ∧ ∃ s, s ∈ l ∧ long s = k ∧ defaultValue s = Some v).
Proof.
  revert flags. induction l as [|s l IH]; intros flags; cbn [foldl]; [auto|].
  intros H. apply IH in H as [H|(Hg & s' & Hin & Hl & Hd)].
  - apply default_step_lookup in H as [H|(Hg & Hl & Hd)]; [auto|].
    right. split; [exact Hg|]. exists s. split; [left | auto].
  - right. split; [exact (default_step_get _ _ _ Hg)|].
    exists s'. split; [right; exact Hin | auto].
Qed.

Lemma defaults_keep (l : list FlagSchema) (flags : gmap string FlagValue)
    (k : string) (v : FlagValue) :
  flags !! k = Some v → foldl default_step flags l !! k = Some v.
Proof.
  revert flags. induction l as [|s l IH]; intros flags; cbn [foldl]; [auto|].
  intros H. apply IH. unfold default_step.
  destruct (get flags (long s)) eqn:Hg; auto.
  destruct (defaultValue s) as [d|]; auto.
  apply get_undefined in Hg as [Hnone _].
  rewrite lookup_insert_ne; [exact H | congruence].
Qed.

(** The default of an entry is inserted when the name is absent and no
    earlier entry with a default has the same name. *)
Lemma defaults_fill (l : list FlagSchema) (flags : gmap string FlagValue)
    (s : FlagSchema) (d : FlagValue) :
  NoDup (long <$> l) → s ∈ l → defaultValue s = Some d →
  get flags (long s) = JUndefined →
  foldl default_step flags l !! long s = Some d.
Proof.
  revert flags. induction l as [|x l IH]; intros flags Hnd Hin Hd Hg; [inversion Hin|].
  rewrite fmap_cons, NoDup_cons in Hnd. destruct Hnd as [Hx Hnd].
  cbn [foldl]. apply elem_of_cons in Hin as [<-|Hin].
  - apply defaults_keep. unfold default_step. rewrite Hg, Hd. apply lookup_insert_eq.
  - apply IH; auto.
    assert (long x ≠ long s) as Hne.
    { intros Heq. apply Hx. rewrite Heq. apply list_elem_of_fmap_2. exact Hin. }
    unfold default_step. destruct (get flags (long x)); auto.
    destruct (defaultValue x); auto.
    apply get_undefined in Hg as [Hnone Hproto]. apply get_undefined.
    split; [|exact Hproto]. rewrite lookup_insert_ne; auto.
Qed.

Lemma find_first {A : Type} (p : A → bool) (pre post : list A) (x : A) :
  (∀ y, y ∈ pre → p y = false) → p x = true →
  List.find p (pre ++ x :: post) = Some x.
Proof.
  intros Hpre Hx. induction pre as [|y pre IH]; simpl.
  - rewrite Hx. reflexivity.
  - rewrite (Hpre y) by left. apply IH. intros z Hz. apply Hpre. right. exact Hz.
Qed.

Lemma find_some_elem {A : Type} (p : A → bool) (l : list A) (x : A) :
  x ∈ l → p x = true → ∃ x0, List.find p l = Some x0.
Proof.
  intros Hin Hx. destruct (List.find p l) as [x0|] eqn:Hf; [eauto|].
  apply list_elem_of_In in Hin.
  pose proof (List.find_none p l Hf x Hin). congruence.
Qed.

Lemma NoDup_long_filter (p : FlagSchema → bool) (l : list FlagSchema) :
  NoDup (long <$> l) → NoDup (long <$> List.filter p l).
Proof.
  induction l as [|x l IH]; simpl; [auto|].
  rewrite NoDup_cons. intros [Hx Hnd].
  destruct (p x); [|auto].
  rewrite fmap_cons, NoDup_cons. split; [|auto].
  intros Hin. apply Hx. apply list_elem_of_fmap in Hin as (y & Hy & Hin).
  apply list_elem_of_In, List.filter_In in Hin as [Hin _].
  rewrite Hy. apply list_elem_of_fmap_2, list_elem_of_In. exact Hin.
Qed.

Lemma with_default_elem (schema : list FlagSchema) (s : FlagSchema) :
  s ∈ with_default schema ↔
    s ∈ schema ∧ not_required s = true ∧ defaultValue s ≠ None.
Proof.
  unfold with_default. rewrite list_elem_of_In, List.filter_In, <- list_elem_of_In.
  rewrite andb_true_iff, bool_decide_eq_true. tauto.
Qed.

(** C5, the claim as stated fails: with two required entries absent, the
    error names the first of them in schema order, here [aa], and not the
    later entry [bb] that also declares a default. *)
Lemma C5_first_missing_counterexample :
  let schema :=
    [ required_entry "aa" "boolean" None;
      required_entry "bb" "boolean" (Some (VBoolean true)) ] in
  validateSchema schema = Ok schema ∧
  get ∅ "bb" = JUndefined ∧
  tiniargs [] (Some schema) = Throw (MissingRequiredFlagError "aa") ∧
  tiniargs [] (Some schema) ≠ Throw (MissingRequiredFlagError "bb").
Proof. repeat split; try (vm_compute; reflexivity). vm_compute. discriminate. Qed.

(** C5, amended: in schema mode, once the schema is validated and the
    flags are merged, an absent required entry (one for which
    [flags[long]] is [undefined]), with or without a default, makes
    [tiniargs] fail with the [MissingRequiredFlagError] of the first
    required entry, in schema order, that is absent; this is the entry
    itself when no required entry before it is absent.  No default is
    filled in then.  When no required entry is absent [tiniargs] returns,
    and compared with the merged flags the result has defaults only under
    names that were absent, each the default of a non-required entry of
    that name, and every such entry has its default inserted. *)
Theorem C5_required_check_precedes_defaults
    (args : list string) (schema : list FlagSchema)
    (parsed : list (list (option FlagPair))) (merged : gmap string FlagValue)
    (Hvalid : validateSchema schema = Ok schema)
    (Hparsed : mapM (parseFlagWithShema schema) args = Ok parsed)
    (Hmerged : forEach merge_step ∅ (parsedFlags parsed) = Ok merged) :
  (∀ s, s ∈ schema → required s = Some true → get merged (long s) = JUndefined →
     ∃ s0, first_missing schema merged = Some s0 ∧
           tiniargs args (Some schema) = Throw (MissingRequiredFlagError (long s0))) ∧
  (∀ pre s post,
     schema = pre ++ s :: post →
     required s = Some true → get merged (long s) = JUndefined →
     (∀ p, p ∈ pre → required p = Some true → get merged (long p) ≠ JUndefined) →
     tiniargs args (Some schema) = Throw (MissingRequiredFlagError (long s))) ∧
  (first_missing schema merged = None →
     ∃ r, tiniargs args (Some schema) = Ok r ∧
       (∀ k v, flags r !! k = Some v →
          merged !! k = Some v ∨
          (get merged k = JUndefined ∧
           ∃ s, s ∈ schema ∧ not_required s = true ∧ long s = k ∧ defaultValue s = Some v)) ∧
       (∀ s d, s ∈ schema → not_required s = true → defaultValue s = Some d →
          get merged (long s) = JUndefined → flags r !! long s = Some d)).
Proof.
  pose proof (tiniargs_schema_phases args schema parsed merged Hvalid Hparsed Hmerged) as Hrun.
  rewrite apply_schema_spec in Hrun.
  split; [|split].
  - intros s Hin Hreq Habsent.
    destruct (find_some_elem
                (λ s, bool_decide (required s = Some true) && is_undefined (get merged (long s)))
                schema s Hin) as [s0 Hs0].
    { rewrite Habsent, bool_decide_eq_true_2 by exact Hreq. reflexivity. }
    exists s0. fold (first_missing schema merged) in Hs0.
    split; [exact Hs0|]. rewrite Hrun, Hs0. reflexivity.
  - intros pre s post -> Hreq Habsent Hpre.
    assert (first_missing (pre ++ s :: post) merged = Some s) as Hfirst.
    { apply find_first.
      - intros p Hp. destruct (bool_decide_reflect (required p = Some true)) as [Hr|]; [|reflexivity].
        specialize (Hpre p Hp Hr). destruct (get merged (long p)); [contradiction | reflexivity..].
      - rewrite Habsent, bool_decide_eq_true_2 by exact Hreq. reflexivity. }
    rewrite Hrun, Hfirst. reflexivity.
  - intros Hnone. rewrite Hnone in Hrun. cbn [bind] in Hrun.
    eexists. split; [exact Hrun|]. cbn [flags]. split.
    + intros k v Hk. apply defaults_only_fill in Hk as [Hk|(Hg & s & Hin & Hl & Hd)]; [auto|].
      right. split; [exact Hg|]. apply with_default_elem in Hin as (Hin & Hnr & _).
      exists s. auto.
    + intros s d Hin Hnr Hd Habsent. apply defaults_fill; auto.
      * apply NoDup_long_filter. apply validateSchema_Ok in Hvalid as [_ (_ & Hnd & _)].
        exact Hnd.
      * apply with_default_elem. rewrite Hd. auto.
Qed.

Lemma C5_required_check_precedes_defaults_witness :
  tiniargs ["--aa"]
    (Some [ required_entry "aa" "boolean" None;
            required_entry "bb" "boolean" (Some (VBoolean true)) ])
    = Throw (MissingRequiredFlagError "bb").
Proof.
  refine (proj1 (proj2 (C5_required_check_precedes_defaults
                          ["--aa"]
                          [ required_entry "aa" "boolean" None;
                            required_entry "bb" "boolean" (Some (VBoolean true)) ]
                          [[Some ("aa", VBoolean true)]]
                          (<["aa" := VBoolean true]> ∅) _ _ _))
                [required_entry "aa" "boolean" None]
                (required_entry "bb" "boolean" (Some (VBoolean true))) []
                eq_refl eq_refl _ _); try (vm_compute; reflexivity).
  intros p Hp _. apply list_elem_of_singleton in Hp as ->. vm_compute. discriminate.
Defined.

(** ** Schema mode: looking entries up *)

Lemma find_long_unique (schemas : list FlagSchema) (s : FlagSchema) :
  NoDup (long <$> schemas) → s ∈ schemas → find_long schemas (long s) = Some s.
Proof.
  unfold find_long. induction schemas as [|x l IH]; intros Hnd Hin; [inversion Hin|].
  rewrite fmap_cons, NoDup_cons in Hnd. destruct Hnd as [Hx Hnd].
  cbn [List.find]. apply elem_of_cons in Hin as [<-|Hin].
  - rewrite bool_decide_eq_true_2; reflexivity.
  - rewrite bool_decide_eq_false_2; [auto|].
    intros Heq. apply Hx. rewrite Heq. apply list_elem_of_fmap_2. exact Hin.
Qed.

Lemma find_short_unique (schemas : list FlagSchema) (s : FlagSchema) (c : string) :
  NoDup (omap short schemas) → s ∈ schemas → short s = Some c →
  find_short schemas c = Some s.
Proof.
  unfold find_short. induction schemas as [|x l IH]; intros Hnd Hin Hs; [inversion Hin|].
  cbn [List.find]. apply elem_of_cons in Hin as [<-|Hin].
  - rewrite bool_decide_eq_true_2; auto.
  - cbn [omap list_omap] in Hnd. case_bool_decide as Hx.
    + exfalso. rewrite Hx in Hnd. apply NoDup_cons in Hnd as [Hnin _].
      apply Hnin. apply list_elem_of_omap. eauto.
    + apply IH; auto. destruct (short x); [|exact Hnd].
      apply NoDup_cons in Hnd as [_ Hnd]. exact Hnd.
Qed.

Lemma find_short_absent (schemas : list FlagSchema) (c : string) :
  (∀ s, s ∈ schemas → short s ≠ Some c) → find_short schemas c = None.
Proof.
  unfold find_short. induction schemas as [|x l IH]; intros H; [reflexivity|].
  cbn [List.find]. rewrite bool_decide_eq_false_2 by (apply H; left).
  apply IH. intros s Hs. apply H. right. exact Hs.
Qed.

(** ** Schema mode: from a token to the result *)

Lemma token_throws_intro (schemas : list FlagSchema) (arg : string) (e : Error) :
  validateSchema schemas = Ok schemas →
  parseFlagWithShema schemas arg = Throw e →
  token_throws schemas arg e.
Proof.
  intros Hv He. split; [exact He|]. intros pre post Hpre.
  unfold tiniargs, flagParseFn. rewrite Hv. cbn [bind].
  rewrite mapM_app.
  destruct (mapM (parseFlagWithShema schemas) pre); [|discriminate].
  cbn [bind mapM]. rewrite He. reflexivity.
Qed.

Lemma mapM_elem {A B : Type} (f : A → result B) (xs : list A) (ys : list B) (x : A) :
  mapM f xs = Ok ys → x ∈ xs → ∃ y, f x = Ok y ∧ y ∈ ys.
Proof.
  revert ys. induction xs as [|a xs IH]; intros ys Hm Hin; [inversion Hin|].
  cbn [mapM] in Hm.
  destruct (f a) as [b|] eqn:Ha; [|discriminate]. cbn [bind] in Hm.
  destruct (mapM f xs) as [bs|]; [|discriminate]. injection Hm as <-.
  apply elem_of_cons in Hin as [->|Hin].
  - exists b. split; [exact Ha | left].
  - destruct (IH bs eq_refl Hin) as (y & Hy & Hyin).
    exists y. split; [exact Hy | right; exact Hyin].
Qed.

Lemma tiniargs_schema_Ok (args : list string) (schemas : list FlagSchema) (r : ParsedArgs) :
  tiniargs args (Some schemas) = Ok r →
  ∃ parsed merged,
    validateSchema schemas = Ok schemas ∧
    mapM (parseFlagWithShema schemas) args = Ok parsed ∧
    forEach merge_step ∅ (parsedFlags parsed) = Ok merged ∧
    first_missing schemas merged = None ∧
    r = {| positionals := filter_positionals args;
           flags := foldl default_step merged (with_default schemas) |}.
Proof.
  unfold tiniargs, flagParseFn.
  destruct (validateSchema schemas) as [v|] eqn:Hv; [|discriminate].
  apply validateSchema_Ok in Hv as [-> Hwf]. cbn [bind].
  destruct (mapM (parseFlagWithShema schemas) args) as [parsed|] eqn:Hp; [|discriminate].
  cbn [bind].
  destruct (forEach merge_step ∅ (parsedFlags parsed)) as [merged|] eqn:Hm; [|discriminate].
  cbn [bind]. rewrite apply_schema_spec.
  destruct (first_missing schemas merged) eqn:Hfm; [discriminate|].
  cbn [bind]. intros [= <-].
  exists parsed, merged. repeat split; assumption || reflexivity.
Qed.

(** A pair that a token emits is in the flags of every result. *)
Lemma emitted_pair_in_flags (args : list string) (schemas : list FlagSchema)
    (r : ParsedArgs) (arg k : string) (v : FlagValue) (emitted : list (option FlagPair)) :
  tiniargs args (Some schemas) = Ok r →
  arg ∈ args →
  parseFlagWithShema schemas arg = Ok emitted →
  Some (k, v) ∈ emitted →
  flags r !! k = Some v.
Proof.
  intros Hrun Hin Harg Hpair.
  apply tiniargs_schema_Ok in Hrun as (parsed & merged & _ & Hp & Hm & _ & ->).
  cbn [flags]. apply defaults_keep.
  destruct (mapM_elem _ _ _ _ Hp Hin) as (y & Hy & Hyin).
  rewrite Harg in Hy. injection Hy as <-.
  assert ((k, v) ∈ parsedFlags parsed) as Hkv.
  { unfold parsedFlags. apply list_elem_of_omap. exists (Some (k, v)).
    split; [|reflexivity]. apply list_elem_of_In, in_concat.
    exists emitted. split; apply list_elem_of_In; assumption. }
  apply list_elem_of_split in Hkv as (l1 & l2 & Hsplit).
  rewrite Hsplit in Hm. exact (merge_stores _ _ _ _ _ Hm).
Qed.

(** A call with the single token [arg] returns when the key is no
    inherited name and nothing else is required. *)
Lemma single_token_run (schemas : list FlagSchema) (arg k : string) (v : FlagValue) :
  validateSchema schemas = Ok schemas →
  parseFlagWithShema schemas arg = Ok [Some (k, v)] →
  k ∉ Object_prototype →
  (∀ p, p ∈ schemas → required p = Some true → long p = k) →
  ∃ r, tiniargs [arg] (Some schemas) = Ok r ∧ flags r !! k = Some v.
Proof.
  intros Hv Harg Hproto Hreq.
  assert (forEach merge_step ∅ (parsedFlags [[Some (k, v)]]) = Ok {[ k := v ]}) as Hm.
  { cbn. unfold get. rewrite lookup_empty, bool_decide_eq_false_2 by exact Hproto.
    reflexivity. }
  assert (mapM (parseFlagWithShema schemas) [arg] = Ok [[Some (k, v)]]) as Hp.
  { cbn [mapM]. rewrite Harg. reflexivity. }
  pose proof (tiniargs_schema_phases [arg] schemas _ _ Hv Hp Hm) as Hrun.
  rewrite apply_schema_spec in Hrun.
  assert (first_missing schemas {[ k := v ]} = None) as Hnone.
  { unfold first_missing. destruct (List.find _ schemas) as [p|] eqn:Hf; [|reflexivity].
    apply List.find_some in Hf as [Hin Hp']. apply list_elem_of_In in Hin.
    apply andb_prop in Hp' as [Hr Hu]. apply bool_decide_eq_true in Hr.
    rewrite (Hreq p Hin Hr) in Hu.
    rewrite (get_stored {[ k := v ]} k v) in Hu by apply lookup_singleton_eq.
    discriminate. }
  rewrite Hnone in Hrun. cbn [bind] in Hrun.
  eexists. split; [exact Hrun|]. cbn [flags].
  apply defaults_keep, lookup_singleton_eq.
Qed.

Lemma match_key_val_key (s key : string) (val : option string) :
  match_key_val s = Some (key, val) → key ≠ EmptyString.
Proof.
  unfold match_key_val. destruct (Str.takeWhile is_word s) as [|c t] eqn:Hk; [discriminate|].
  cbn [Str.isEmpty]. destruct (Str.dropWhile is_word s) as [|d r].
  - intros [= <- _]. discriminate.
  - destruct (Ascii.eqb d "="); intros [= <- _]; discriminate.
Qed.

(** The captured key is never empty. *)
Lemma FLAG_REGEX_key (arg key : string) (val : option string) :
  FLAG_REGEX arg = Some (key, val) → key ≠ EmptyString.
Proof.
  induction arg as [|c t IH]; [discriminate|].
  cbn [FLAG_REGEX]. destruct (match_here (String c t)) as [m|] eqn:Hm; [|exact IH].
  intros [= ->]. unfold match_here in Hm.
  destruct (Ascii.eqb c "-"); [|discriminate].
  destruct t as [|d u]; [discriminate|].
  destruct (Ascii.eqb d "-").
  - destruct (match_key_val u) as [m|] eqn:Hu.
    + injection Hm as ->. exact (match_key_val_key _ _ _ Hu).
    + exact (match_key_val_key _ _ _ Hm).
  - exact (match_key_val_key _ _ _ Hm).
Qed.

Lemma short_loop_extends (schemas : list FlagSchema) (val : option string)
    (chars : list string) (acc out : list (option FlagPair)) :
  forEach (short_step schemas val) acc chars = Ok out → ∃ more, out = acc ++ more.
Proof.
  revert acc. induction chars as [|c chars IH]; intros acc.
  - cbn. intros [= <-]. exists []. rewrite app_nil_r. reflexivity.
  - cbn [forEach]. unfold short_step at 1.
    destruct (find_short schemas c) as [s|]; [|discriminate].
    destruct (negb (bool_decide (valueType s = "boolean"))); [discriminate|].
    cbn [bind]. intros H. apply IH in H as [more ->].
    eexists. rewrite <- app_assoc. reflexivity.
Qed.

(** With a validated schema a token in which the pattern matches either
    throws or emits a pair: it is never dropped. *)
Lemma schema_token_not_dropped (schemas : list FlagSchema) (arg key : string)
    (val : option string) :
  validateSchema schemas = Ok schemas →
  FLAG_REGEX arg = Some (key, val) →
  (∃ e, parseFlagWithShema schemas arg = Throw e) ∨
  (∃ p more, parseFlagWithShema schemas arg = Ok (Some p :: more)).
Proof.
  intros Hvalid Hmatch.
  apply validateSchema_Ok in Hvalid as [_ (Hok & _ & _)].
  unfold parseFlagWithShema. rewrite Hmatch.
  destruct (Str.startsWith arg "--"); cbn [negb].
  - destruct (find_long schemas key) as [s|] eqn:Hfind; [|eauto].
    apply List.find_some in Hfind as [Hin _].
    rewrite List.Forall_forall in Hok. specialize (Hok s Hin).
    unfold entry_ok in Hok. apply andb_prop in Hok as [_ Htag].
    apply bool_decide_eq_true in Htag.
    repeat (apply elem_of_cons in Htag as [-> | Htag]); [| | |inversion Htag].
    + cbn. destruct val as [v|]; [|eauto]. destruct (Str.isEmpty v); eauto.
    + cbn. destruct (parseInt val); eauto.
    + cbn. destruct (truthy val && negb (bool_decide (val = Some "true"))
                     && negb (bool_decide (val = Some "false"))); eauto.
  - pose proof (FLAG_REGEX_key _ _ _ Hmatch) as Hne.
    destruct key as [|c t]; [congruence|].
    cbn [Str.split forEach].
    destruct (short_step schemas val [] (String c EmptyString)) as [acc|e] eqn:Hstep;
      [|eauto].
    cbn [bind]. unfold short_step in Hstep.
    destruct (find_short schemas (String c EmptyString)) as [s|]; [|discriminate].
    destruct (negb (bool_decide (valueType s = "boolean"))); [discriminate|].
    injection Hstep as <-. cbn [app].
    destruct (forEach (short_step schemas val) [Some (long s, VBoolean true)]
                (Str.split t)) as [out|e] eqn:Hloop; [|left; eauto].
    apply short_loop_extends in Hloop as [more ->]. right.
    exists (long s, VBoolean true), more. reflexivity.
Qed.

(** ** Tokens that begin with a dash, in both modes *)

(** C1, the claim as stated fails: ['-abc!'] and ['---foo'] begin with a
    dash and are outside the anchored grammar, yet the unanchored pattern
    finds a flag in each; without a schema they yield a pair, and with a
    schema ['-abc!'] raises an error. *)
Lemma C1_anchored_grammar_counterexample :
  Str.startsWith "-abc!" "-" = true ∧ spec_flag_grammar "-abc!" = false ∧
  parseFlagNoSchema "-abc!" = [Some ("abc", VBoolean true)] ∧
  tiniargs ["-abc!"] None
    = Ok {| positionals := []; flags := {[ "abc" := VBoolean true ]} |} ∧
  tiniargs ["-abc!"] (Some []) = Throw (UnknownFlagError "a" true) ∧
  Str.startsWith "---foo" "-" = true ∧ spec_flag_grammar "---foo" = false ∧
  tiniargs ["---foo"] None
    = Ok {| positionals := []; flags := {[ "foo" := VBoolean true ]} |}.
Proof. repeat split; vm_compute; reflexivity. Qed.

(** C1, amended: a token that begins with a dash is dropped entirely, in
    both modes, exactly when the unanchored pattern finds no match in it,
    that is when none of its dashes is directly followed by a word
    character.  Such a token yields no pair, no positional and no error, and
    removing it from the arguments leaves the result of [tiniargs]
    unchanged; any other dash-initial token yields a pair without a
    schema, and throws or yields a pair with a validated schema. *)
Theorem C1_unmatched_dash_token_dropped
    (arg : string) (Hdash : Str.startsWith arg "-" = true) :
  (dash_then_word arg = false →
     parseFlagNoSchema arg = [None] ∧
     (∀ schemas, parseFlagWithShema schemas arg = Ok [None]) ∧
     filter_positionals [arg] = [] ∧
     ∀ pre post schema,
       tiniargs (pre ++ arg :: post) schema = tiniargs (pre ++ post) schema) ∧
  (dash_then_word arg = true →
     (∃ key v, parseFlagNoSchema arg = [Some (key, v)]) ∧
     ∀ schemas,
       validateSchema schemas = Ok schemas →
       (∃ e, parseFlagWithShema schemas arg = Throw e) ∨
       (∃ p more, parseFlagWithShema schemas arg = Ok (Some p :: more))).
Proof.
  split.
  - intros Hno. apply FLAG_REGEX_None_iff in Hno.
    assert (filter_positionals [arg] = []) as Hpos.
    { unfold filter_positionals. cbn [List.filter]. rewrite Hdash. reflexivity. }
    repeat split.
    + unfold parseFlagNoSchema. rewrite Hno. reflexivity.
    + intros schemas. unfold parseFlagWithShema. rewrite Hno. reflexivity.
    + exact Hpos.
    + intros pre post schema. unfold tiniargs.
      replace (filter_positionals (pre ++ arg :: post))
        with (filter_positionals (pre ++ post)).
      2:{ change (arg :: post) with ([arg] ++ post).
          rewrite !filter_positionals_app, Hpos. reflexivity. }
      destruct (flagParseFn schema) as [fn|e] eqn:Hfn; simpl; [|reflexivity].
      change (arg :: post) with ([arg] ++ post).
      rewrite !mapM_app. simpl.
      rewrite (flagParseFn_unmatched schema fn arg Hfn Hno). simpl.
      destruct (mapM fn pre) as [a|e]; simpl; [|reflexivity].
      destruct (mapM fn post) as [b|e]; simpl; [|reflexivity].
      rewrite flat_defined_drop. reflexivity.
  - intros Hyes.
    destruct (FLAG_REGEX arg) as [[key val]|] eqn:Hm.
    2:{ apply FLAG_REGEX_None_iff in Hm. congruence. }
    split.
    + unfold parseFlagNoSchema. rewrite Hm.
      destruct (NUMBER_REGEX val), (parseInt val); eauto.
    + intros schemas Hvalid. exact (schema_token_not_dropped schemas arg key val Hvalid Hm).
Qed.

Lemma C1_unmatched_dash_token_dropped_witness :
  (∀ pre post schema,
     tiniargs (pre ++ "--=x" :: post) schema = tiniargs (pre ++ post) schema) ∧
  (∃ key v, parseFlagNoSchema "-abc!" = [Some (key, v)]).
Proof.
  split.
  - apply (C1_unmatched_dash_token_dropped "--=x"); reflexivity.
  - apply (proj2 (C1_unmatched_dash_token_dropped "-abc!" eq_refl)); reflexivity.
Defined.

(** ** Schema mode: the short form *)

Lemma short_loop_Ok (schemas : list FlagSchema) (val : option string)
    (chars : list string) (entries : list FlagSchema) (acc : list (option FlagPair)) :
  NoDup (omap short schemas) →
  Forall2 (boolean_short schemas) chars entries →
  forEach (short_step schemas val) acc chars = Ok (acc ++ (short_pair <$> entries)).
Proof.
  intros Hnd HF. revert acc.
  induction HF as [|c s chars entries (Hin & Hshort & Htype) _ IH]; intros acc.
  - cbn. rewrite app_nil_r. reflexivity.
  - cbn [forEach]. unfold short_step at 1.
    rewrite (find_short_unique schemas s c Hnd Hin Hshort).
    rewrite bool_decide_eq_true_2 by exact Htype. cbn [negb bind].
    rewrite IH, fmap_cons, <- app_assoc. reflexivity.
Qed.








(** ** Schema mode: the long form *)

Lemma long_form (schemas : list FlagSchema) (arg k : string) (val : option string)
    (s : FlagSchema) :
  validateSchema schemas = Ok schemas →
  s ∈ schemas → long s = k →
  Str.startsWith arg "--" = true →
  FLAG_REGEX arg = Some (k, val) →
  parseFlagWithShema schemas arg =
    if bool_decide (valueType s = "number") then
      match parseInt val with
      | None =>
          Throw (FlagParseError
                   ("Failed to parse numeric flag " +:+ Str.quoted k
                      +:+ " (given value " +:+ Str.quoted (ToString val) +:+ ")")
                   k val)
      | Some parsed => Ok [Some (k, VNumber parsed)]
      end
    else if bool_decide (valueType s = "boolean") then
      if truthy val && negb (bool_decide (val = Some "true"))
         && negb (bool_decide (val = Some "false")) then
        Throw (FlagParseError
                 ("Invalid value " +:+ Str.quoted (ToString val)
                    +:+ " for boolean flag " +:+ Str.quoted k
                    +:+ ". Expected true or false")
                 k val)
      else Ok [Some (k, VBoolean (negb (truthy val) || bool_decide (val = Some "true")))]
    else if bool_decide (valueType s = "string") then
      match val with
      | Some v =>
          if Str.isEmpty v then Throw (err_string_nothing k val)
          else Ok [Some (k, VString v)]
      | None => Throw (err_string_nothing k val)
      end
    else Ok [None].
Proof.
  intros Hv Hin <- Hdouble Hmatch.
  apply validateSchema_Ok in Hv as [_ (_ & Hnd & _)].
  unfold parseFlagWithShema. rewrite Hmatch, Hdouble. cbn [negb].
  rewrite (find_long_unique schemas s Hnd Hin). reflexivity.
Qed.

(** The long name of an entry of a validated schema is not empty. *)
Lemma validated_long_nonempty (schemas : list FlagSchema) (s : FlagSchema) :
  validateSchema schemas = Ok schemas → s ∈ schemas → long s ≠ EmptyString.
Proof.
  intros Hv Hin. apply validateSchema_Ok in Hv as [_ (Hok & _ & _)].
  rewrite List.Forall_forall in Hok. apply list_elem_of_In in Hin.
  specialize (Hok s Hin). unfold entry_ok in Hok.
  intros Hempty. rewrite Hempty in Hok. discriminate.
Qed.






Lemma all_app (p : ascii → bool) (a b : string) :
  Str.all p (a +:+ b) = Str.all p a && Str.all p b.
Proof.
  induction a as [|c t IH]; [reflexivity|].
  rewrite append_cons. simpl. rewrite IH, andb_assoc. reflexivity.
Qed.

Lemma not_all_digits (digits rest : string) :
  rest ≠ EmptyString → Str.takeWhile is_digit rest = EmptyString →
  NUMBER_REGEX (Some (digits +:+ rest)) = false.
Proof.
  intros Hne Hrest. unfold NUMBER_REGEX, ToString.
  rewrite all_app. destruct rest as [|c r]; [congruence|].
  simpl in Hrest. simpl. destruct (is_digit c); [discriminate|].
  rewrite andb_false_r. apply andb_false_r.
Qed.

(** Without a schema a value becomes a number only when all of it is
    digits. *)
Lemma no_schema_number_only_digits (arg key : string) (val : option string)
    (n : JSNumber) :
  FLAG_REGEX arg = Some (key, val) →
  parseFlagNoSchema arg = [Some (key, VNumber n)] →
  ∃ ds, val = Some ds ∧ ds ≠ EmptyString ∧ Str.all is_digit ds = true.
Proof.
  intros Hm. unfold parseFlagNoSchema. rewrite Hm.
  destruct (NUMBER_REGEX val) eqn:Hn.
  - intros _. apply NUMBER_REGEX_spec. exact Hn.
  - destruct val; cbn; intros [=].
Qed.

(** A number flag, in terms of what the pattern captures: for an entry [k]
    of value type number and a token that starts with two dashes in which
    [FLAG_REGEX] captures the key [k] and a value made of a non-empty run of
    digits followed by something that does not begin with a digit, the token
    does not fail: it emits [k] with the double nearest to the integer that
    the leading digits denote, and that number is the flag [k] of every
    result. *)
Lemma number_flag_captured
    (schemas : list FlagSchema) (arg k digits rest : string) (s : FlagSchema)
    (Hvalid : validateSchema schemas = Ok schemas)
    (Hentry : s ∈ schemas) (Hlong : long s = k) (Htype : valueType s = "number")
    (Hdouble : Str.startsWith arg "--" = true)
    (Hmatch : FLAG_REGEX arg = Some (k, Some (digits +:+ rest)))
    (Hdigits : digits ≠ EmptyString ∧ Str.all is_digit digits = true)
    (Hrest : Str.takeWhile is_digit rest = EmptyString) :
  parseFlagWithShema schemas arg
    = Ok [Some (k, VNumber (nearest_double false (decimal digits)))] ∧
  (∀ args r, arg ∈ args → tiniargs args (Some schemas) = Ok r →
             flags r !! k = Some (VNumber (nearest_double false (decimal digits)))) ∧
  (k ∉ Object_prototype →
   (∀ p, p ∈ schemas → required p = Some true → long p = k) →
   ∃ r, tiniargs [arg] (Some schemas) = Ok r ∧
        flags r !! k = Some (VNumber (nearest_double false (decimal digits)))).
Proof.
  destruct Hdigits as [Hne Hds].
  pose proof (long_form schemas arg k _ s Hvalid Hentry Hlong Hdouble Hmatch) as Hparse.
  rewrite Htype in Hparse. cbn [bool_decide decide_rel] in Hparse.
  rewrite bool_decide_eq_true_2 in Hparse by reflexivity.
  rewrite (parseInt_digit_prefix digits rest Hne Hds Hrest) in Hparse.
  split; [exact Hparse|]. split.
  - intros args r Hin Hrun.
    apply (emitted_pair_in_flags args schemas r arg _ _ _ Hrun Hin Hparse). left.
  - intros Hproto Hreq. exact (single_token_run schemas arg k _ Hvalid Hparse Hproto Hreq).
Qed.

Lemma takeWhile_app_all (p : ascii → bool) (s rest : string) :
  Str.all p s = true → Str.takeWhile p (s +:+ rest) = s +:+ Str.takeWhile p rest.
Proof.
  intros Hs. induction s as [|c t IH]; [reflexivity|].
  simpl in Hs. apply andb_prop in Hs as [Hc Ht].
  rewrite !append_cons. simpl. rewrite Hc, (IH Ht). reflexivity.
Qed.

Lemma digit_is_dot (c : ascii) : is_digit c = true → is_dot c = true.
Proof. destruct c as [[] [] [] [] [] [] [] []]; vm_compute; congruence. Qed.

Lemma digits_are_dots (ds : string) : Str.all is_digit ds = true → Str.all is_dot ds = true.
Proof.
  induction ds as [|c t IH]; [reflexivity|]. simpl.
  intros H. apply andb_prop in H as [Hc Ht].
  rewrite (digit_is_dot c Hc), (IH Ht). reflexivity.
Qed.

(** What stops the digits still stops them in the captured part. *)
Lemma takeWhile_digit_captured (rest : string) :
  Str.takeWhile is_digit rest = EmptyString →
  Str.takeWhile is_digit (Str.takeWhile is_dot rest) = EmptyString.
Proof.
  destruct rest as [|c r]; [reflexivity|]. simpl.
  destruct (is_digit c) eqn:Hc; [discriminate|]. intros _.
  destruct (is_dot c); simpl; [rewrite Hc|]; reflexivity.
Qed.

(** C10, the claim as stated fails in two ways.  A long name with a
    character that is not a word character is never captured: with the
    validated number entry [my-num], ['--my-num=12abc'] raises
    [UnknownFlagError] for [my].  And the number is a double, not every
    integer prefix: the prefix 9007199254740993 (2^53 + 1) gives
    9007199254740992. *)
Lemma C10_key_and_rounding_counterexample :
  validateSchema [entry "my-num" "m" "number"] = Ok [entry "my-num" "m" "number"] ∧
  tiniargs ["--my-num=12abc"] (Some [entry "my-num" "m" "number"])
    = Throw (UnknownFlagError "my" false) ∧
  validateSchema [entry "kk" "k" "number"] = Ok [entry "kk" "k" "number"] ∧
  decimal "9007199254740993" = 9007199254740993 ∧
  tiniargs ["--kk=9007199254740993abc"] (Some [entry "kk" "k" "number"])
    = Ok {| positionals := [];
            flags := {[ "kk" := VNumber (Integer false 9007199254740992) ]} |}.
Proof. repeat split; vm_compute; reflexivity. Qed.

(** C10, amended: in schema mode, for every entry of a validated schema of
    value type number whose long name [k] is made of word characters, a
    token ['--k=v'] whose value is a non-empty run of digits followed by
    something that begins with a character that is not a digit does not
    fail: it emits [k] with the double nearest to the integer that the
    digits denote, which is that integer itself when it is below 2^53, and
    this number is the flag [k] of every result.  Without a schema the same
    token keeps the captured value, the value up to its first line
    terminator, as a string when something is captured after the digits,
    and a value becomes a number there only when all that is captured is
    digits. *)
Theorem C10_number_flag_reads_digit_prefix
    (schemas : list FlagSchema) (k digits rest : string) (s : FlagSchema)
    (Hvalid : validateSchema schemas = Ok schemas)
    (Hentry : s ∈ schemas) (Hlong : long s = k) (Htype : valueType s = "number")
    (Hword : Str.all is_word k = true)
    (Hdigits : digits ≠ EmptyString ∧ Str.all is_digit digits = true)
    (Hrest : rest ≠ EmptyString ∧ Str.takeWhile is_digit rest = EmptyString) :
  parseFlagWithShema schemas ("--" +:+ k +:+ "=" +:+ digits +:+ rest)
    = Ok [Some (k, VNumber (nearest_double false (decimal digits)))] ∧
  (decimal digits < 2 ^ 53 →
   nearest_double false (decimal digits) = Integer false (decimal digits)) ∧
  (∀ args r,
     ("--" +:+ k +:+ "=" +:+ digits +:+ rest) ∈ args →
     tiniargs args (Some schemas) = Ok r →
     flags r !! k = Some (VNumber (nearest_double false (decimal digits)))) ∧
  (k ∉ Object_prototype →
   (∀ p, p ∈ schemas → required p = Some true → long p = k) →
   ∃ r, tiniargs ["--" +:+ k +:+ "=" +:+ digits +:+ rest] (Some schemas) = Ok r ∧
        flags r !! k = Some (VNumber (nearest_double false (decimal digits)))) ∧
  (Str.takeWhile is_dot rest ≠ EmptyString →
   parseFlagNoSchema ("--" +:+ k +:+ "=" +:+ digits +:+ rest)
     = [Some (k, VString (digits +:+ Str.takeWhile is_dot rest))]) ∧
  (Str.takeWhile is_dot rest = EmptyString →
   parseFlagNoSchema ("--" +:+ k +:+ "=" +:+ digits +:+ rest)
     = [Some (k, VNumber (nearest_double false (decimal digits)))]) ∧
  (∀ arg' key val n,
     FLAG_REGEX arg' = Some (key, val) →
     parseFlagNoSchema arg' = [Some (key, VNumber n)] →
     ∃ ds, val = Some ds ∧ ds ≠ EmptyString ∧ Str.all is_digit ds = true).
Proof.
  assert (k ≠ EmptyString) as Hne.
  { rewrite <- Hlong. exact (validated_long_nonempty schemas s Hvalid Hentry). }
  destruct Hdigits as [Hdne Hds]. destruct Hrest as [Hrne Hrest].
  destruct (long_value_token_captures k (digits +:+ rest) Hne Hword) as [Hdouble Hmatch].
  rewrite (takeWhile_app_all is_dot digits rest (digits_are_dots digits Hds)) in Hmatch.
  pose proof (takeWhile_digit_captured rest Hrest) as Hrest'.
  destruct (number_flag_captured schemas _ k digits (Str.takeWhile is_dot rest) s
              Hvalid Hentry Hlong Htype Hdouble Hmatch (conj Hdne Hds) Hrest')
    as (Hemit & Hflags & Hrun).
  split; [exact Hemit|]. split; [apply nearest_double_exact|].
  split; [exact Hflags|]. split; [exact Hrun|]. split; [|split].
  - intros Hcaptured. unfold parseFlagNoSchema.
    rewrite Hmatch, (not_all_digits digits _ Hcaptured Hrest'). reflexivity.
  - intros Hcaptured. unfold parseFlagNoSchema.
    rewrite Hmatch, Hcaptured, append_empty_r.
    rewrite (parseInt_digits digits Hdne Hds).
    replace (NUMBER_REGEX (Some digits)) with true; [reflexivity|].
    symmetry. apply NUMBER_REGEX_spec. eauto.
  - exact no_schema_number_only_digits.
Qed.

Lemma C10_number_flag_reads_digit_prefix_witness :
  parseFlagWithShema [entry "kk" "k" "number"] "--kk=12abc"
    = Ok [Some ("kk", VNumber (Integer false 12))] ∧
  parseFlagNoSchema "--kk=12abc" = [Some ("kk", VString "12abc")].
Proof.
  pose proof (C10_number_flag_reads_digit_prefix
                [entry "kk" "k" "number"] "kk" "12" "abc"
                (entry "kk" "k" "number")) as H.
  destruct H as (H1 & _ & _ & _ & H2 & _); try (vm_compute; reflexivity).
  - set_solver.
  - split; [discriminate | reflexivity].
  - split; [discriminate | reflexivity].
  - split; [exact H1 | apply H2; discriminate].
Defined.

(** ** A dash inside a token *)

Lemma no_schema_valueless (arg key : string) :
  FLAG_REGEX arg = Some (key, None) →
  parseFlagNoSchema arg = [Some (key, VBoolean true)].
Proof. intros H. unfold parseFlagNoSchema. rewrite H. reflexivity. Qed.

Lemma no_schema_single_run (arg key : string) (v : FlagValue) :
  parseFlagNoSchema arg = [Some (key, v)] →
  key ∉ Object_prototype →
  tiniargs [arg] None
    = Ok {| positionals := filter_positionals [arg]; flags := {[ key := v ]} |}.
Proof.
  intros Hp Hproto. unfold tiniargs. cbn [flagParseFn bind mapM]. rewrite Hp.
  cbn. unfold get. rewrite lookup_empty, bool_decide_eq_false_2 by exact Hproto.
  reflexivity.
Qed.

(** C9: a token that does not begin with a dash is kept as a positional
    and is also given to the flag parser, where the unanchored pattern
    matches at the first dash that starts a match.  For a token made of a
    dash-free prefix, a dash and a word [w], as ['foo-bar'], no-schema mode
    yields both the positional and the pair [(w, true)]; in schema mode the
    characters of [w] are looked up as short flags, so the token raises
    [UnknownFlagError] for an unknown first character and emits the long
    names of boolean entries otherwise. *)
Theorem C9_token_with_inner_dash
    (arg : string) (Hnodash : Str.startsWith arg "-" = false) :
  (∀ args, arg ∈ args → arg ∈ filter_positionals args) ∧
  (∀ pre suf m,
     arg = pre +:+ suf → dash_free pre = true → match_here suf = Some m →
     FLAG_REGEX arg = Some m ∧ ∃ v, parseFlagNoSchema arg = [Some (m.1, v)]) ∧
  (∀ pre w,
     arg = pre +:+ String "-" w → dash_free pre = true →
     w ≠ EmptyString → Str.all is_word w = true →
     parseFlagNoSchema arg = [Some (w, VBoolean true)] ∧
     (w ∉ Object_prototype →
      tiniargs [arg] None
        = Ok {| positionals := [arg]; flags := {[ w := VBoolean true ]} |}) ∧
     (∀ schemas c t,
        validateSchema schemas = Ok schemas → w = String c t →
        (∀ s, s ∈ schemas → short s ≠ Some (String c EmptyString)) →
        tiniargs [arg] (Some schemas)
          = Throw (UnknownFlagError (String c EmptyString) true)) ∧
     (∀ schemas entries,
        validateSchema schemas = Ok schemas →
        Forall2 (boolean_short schemas) (Str.split w) entries →
        parseFlagWithShema schemas arg = Ok (short_pair <$> entries))).
Proof.
  assert (filter_positionals [arg] = [arg]) as Hpos.
  { unfold filter_positionals. cbn [List.filter]. rewrite Hnodash. reflexivity. }
  assert (Str.startsWith arg "--" = false) as Hsingle.
  { destruct arg as [|c t]; [reflexivity|].
    rewrite startsWith_dash in Hnodash. simpl.
    rewrite Ascii.eqb_sym, Hnodash. reflexivity. }
  split; [|split].
  - intros args Hin. unfold filter_positionals.
    apply list_elem_of_In, List.filter_In. split; [apply list_elem_of_In; exact Hin|].
    rewrite Hnodash. reflexivity.
  - intros pre suf [key val] -> Hfree Hm.
    assert (FLAG_REGEX (pre +:+ suf) = Some (key, val)) as Hmatch.
    { rewrite (FLAG_REGEX_skip pre suf Hfree). apply FLAG_REGEX_here. exact Hm. }
    split; [exact Hmatch|]. unfold parseFlagNoSchema. rewrite Hmatch.
    destruct (NUMBER_REGEX val), (parseInt val); eauto.
  - intros pre w -> Hfree Hne Hw.
    assert (FLAG_REGEX (pre +:+ String "-" w) = Some (w, None)) as Hmatch.
    { rewrite (FLAG_REGEX_skip pre _ Hfree). apply FLAG_REGEX_here, match_here_word; auto. }
    pose proof (no_schema_valueless _ _ Hmatch) as Hpair.
    assert (∀ schemas, parseFlagWithShema schemas (pre +:+ String "-" w)
                       = forEach (short_step schemas None) [] (Str.split w)) as Hparse.
    { intros schemas. unfold parseFlagWithShema. rewrite Hmatch, Hsingle. reflexivity. }
    split; [exact Hpair|]. split; [|split].
    + intros Hproto. rewrite (no_schema_single_run _ _ _ Hpair Hproto), Hpos. reflexivity.
    + intros schemas c t Hvalid -> Habsent.
      apply (token_throws_intro schemas _ _ Hvalid) with (pre := []) (post := []);
        [|reflexivity].
      rewrite Hparse. cbn [Str.split forEach]. unfold short_step at 1.
      rewrite (find_short_absent schemas _ Habsent). reflexivity.
    + intros schemas entries Hvalid HF. rewrite Hparse.
      apply validateSchema_Ok in Hvalid as [_ (_ & _ & Hnd)].
      apply (short_loop_Ok schemas None _ entries [] Hnd HF).
Qed.

Lemma C9_token_with_inner_dash_witness :
  tiniargs ["foo-bar"] None
    = Ok {| positionals := ["foo-bar"]; flags := {[ "bar" := VBoolean true ]} |} ∧
  tiniargs ["foo-bar"] (Some [entry "testflag" "l" "boolean"])
    = Throw (UnknownFlagError "b" true) ∧
  parseFlagWithShema
    [entry "bbb" "b" "boolean"; entry "aaa" "a" "boolean"; entry "rrr" "r" "boolean"]
    "foo-bar"
    = Ok [ Some ("bbb", VBoolean true); Some ("aaa", VBoolean true);
           Some ("rrr", VBoolean true) ].
Proof.
  destruct (proj2 (proj2 (C9_token_with_inner_dash "foo-bar" eq_refl))
              "foo" "bar" eq_refl eq_refl) as (_ & H1 & H2 & H3);
    [discriminate | reflexivity |].
  split; [|split].
  - apply H1. apply not_inherited. vm_compute. reflexivity.
  - apply (H2 [entry "testflag" "l" "boolean"] "b"%char "ar"); [vm_compute; reflexivity..|].
    intros s Hs. apply list_elem_of_singleton in Hs as ->. discriminate.
  - apply (H3 _ [entry "bbb" "b" "boolean"; entry "aaa" "a" "boolean";
                 entry "rrr" "r" "boolean"]); [vm_compute; reflexivity|].
    repeat constructor; set_solver.
Defined.

(** * Further properties of the code *)

(** ** The merge as a whole *)

Lemma insert_keeps_undefined (flags : gmap string FlagValue) (k k' : string) (v : FlagValue) :
  k ≠ k' → get flags k' = JUndefined → get (<[k := v]> flags) k' = JUndefined.
Proof.
  rewrite !get_undefined. intros Hne [Hnone Hproto]. split; [|exact Hproto].
  rewrite lookup_insert_ne; auto.
Qed.

Lemma insert_undefined_inv (flags : gmap string FlagValue) (k k' : string) (v : FlagValue) :
  get (<[k := v]> flags) k' = JUndefined → k ≠ k' ∧ get flags k' = JUndefined.
Proof.
  rewrite !get_undefined. intros [Hnone Hproto].
  destruct (decide (k = k')) as [->|Hne].
  - rewrite lookup_insert_eq in Hnone. discriminate.
  - rewrite lookup_insert_ne in Hnone by exact Hne. auto.
Qed.

Lemma is_inherited (key : string) :
  bool_decide (key ∈ Object_prototype) = true → key ∈ Object_prototype.
Proof. apply bool_decide_eq_true. Qed.

(** The merge succeeds exactly on pairwise distinct keys for which the
    starting object gives [undefined], and then stores every pair. *)
Lemma merge_Ok (pairs : list FlagPair) (flags merged : gmap string FlagValue) :
  forEach merge_step flags pairs = Ok merged ↔
    NoDup pairs.*1 ∧
    (∀ k, k ∈ pairs.*1 → get flags k = JUndefined) ∧
    merged = list_to_map pairs ∪ flags.
Proof.
  revert flags merged. induction pairs as [|[k v] pairs IH]; intros flags merged.
  - cbn. rewrite (left_id_L ∅ (∪)). split.
    + intros [= <-]. repeat split; [constructor | intros k Hk; inversion Hk].
    + intros (_ & _ & ->). reflexivity.
  - cbn [forEach]. rewrite fmap_cons, NoDup_cons. cbn [fst]. split.
    + destruct (merge_step flags (k, v)) as [flags'|] eqn:Hstep; [|discriminate].
      apply merge_step_Ok in Hstep as [Hundef ->]. cbn [bind].
      intros H. apply IH in H as (Hnd & Hall & ->).
      assert (k ∉ pairs.*1) as Hnin.
      { intros Hin. apply Hall, insert_undefined_inv in Hin as [Hne _]. congruence. }
      repeat split; [exact Hnin | exact Hnd | |].
      * intros k' Hk'. apply elem_of_cons in Hk' as [->|Hk']; [exact Hundef|].
        apply Hall, insert_undefined_inv in Hk' as [_ H]. exact H.
      * cbn [list_to_map foldr uncurry curry]. cbn [fst snd]. rewrite <- insert_union_l.
        symmetry. apply insert_union_r. apply not_elem_of_list_to_map_1. exact Hnin.
    + intros ([Hnin Hnd] & Hall & ->).
      assert (get flags k = JUndefined) as Hundef by (apply Hall; left).
      rewrite (proj2 (merge_step_Ok flags _ k v) (conj Hundef eq_refl)). cbn [bind].
      apply IH. repeat split; [exact Hnd | |].
      * intros k' Hk'. apply insert_keeps_undefined; [congruence|].
        apply Hall. right. exact Hk'.
      * cbn [list_to_map foldr uncurry curry]. cbn [fst snd]. rewrite <- insert_union_l.
        apply insert_union_r. apply not_elem_of_list_to_map_1. exact Hnin.
Qed.

Lemma merge_from_empty (pairs : list FlagPair) (merged : gmap string FlagValue) :
  forEach merge_step ∅ pairs = Ok merged ↔
    NoDup pairs.*1 ∧ (∀ k, k ∈ pairs.*1 → k ∉ Object_prototype) ∧
    merged = list_to_map pairs.
Proof.
  rewrite merge_Ok, (right_id_L ∅ (∪)).
  assert (∀ k, get ∅ k = JUndefined ↔ k ∉ Object_prototype) as Hget.
  { intros k. rewrite get_undefined, lookup_empty. tauto. }
  split; intros (H1 & H2 & H3); repeat split; auto; intros k Hk; apply Hget; auto.
Qed.

(** The merge throws nothing but [DuplicateFlagError]. *)
Lemma merge_Throw (pairs : list FlagPair) (flags : gmap string FlagValue) (e : Error) :
  forEach merge_step flags pairs = Throw e →
  ∃ key first second, e = DuplicateFlagError key first second.
Proof.
  revert flags. induction pairs as [|[k v] pairs IH]; intros flags; [discriminate|].
  cbn [forEach]. destruct (merge_step flags (k, v)) as [flags'|e'] eqn:Hstep; cbn [bind].
  - apply IH.
  - intros [= <-]. unfold merge_step in Hstep.
    destruct (get flags k); [discriminate|..]; injection Hstep as <-; eauto.
Qed.

Lemma mapM_total {A B : Type} (f : A → B) (xs : list A) :
  mapM (λ x, Ok (f x)) xs = Ok (f <$> xs).
Proof.
  induction xs as [|x xs IH]; [reflexivity|].
  cbn [mapM bind]. rewrite IH. reflexivity.
Qed.

Lemma tiniargs_no_schema (args : list string) :
  tiniargs args None =
    let* flags := forEach merge_step ∅ (no_schema_pairs args) in
    Ok {| positionals := filter_positionals args; flags := flags |}.
Proof.
  unfold tiniargs, no_schema_pairs. cbn [flagParseFn bind].
  rewrite mapM_total. cbn [bind].
  destruct (forEach merge_step ∅ _); reflexivity.
Qed.

(** X1: without a schema [tiniargs] returns exactly when the keys that the
    tokens emit are pairwise distinct and none of them is a property name
    inherited from [Object.prototype]; the result then holds the tokens
    that do not begin with a dash and every emitted pair.  Otherwise it
    throws, and never anything but a [DuplicateFlagError]. *)
Theorem X1_no_schema_outcome (args : list string) :
  match tiniargs args None with
  | Ok r =>
      NoDup (no_schema_pairs args).*1 ∧
      (∀ k, k ∈ (no_schema_pairs args).*1 → k ∉ Object_prototype) ∧
      r = {| positionals := filter_positionals args;
             flags := list_to_map (no_schema_pairs args) |}
  | Throw e =>
      ¬ (NoDup (no_schema_pairs args).*1 ∧
         ∀ k, k ∈ (no_schema_pairs args).*1 → k ∉ Object_prototype) ∧
      ∃ key first second, e = DuplicateFlagError key first second
  end.
Proof.
  rewrite tiniargs_no_schema.
  destruct (forEach merge_step ∅ (no_schema_pairs args)) as [merged|e] eqn:Hm; cbn [bind].
  - apply merge_from_empty in Hm as (Hnd & Hproto & ->). auto.
  - split.
    + intros [Hnd Hproto].
      assert (forEach merge_step ∅ (no_schema_pairs args)
              = Ok (list_to_map (no_schema_pairs args))) as H; [|congruence].
      apply merge_from_empty. auto.
    + exact (merge_Throw _ _ _ Hm).
Qed.

(** X2: a key that is a property name of [Object.prototype] collides at its
    first occurrence: when the pairs before it merge, [tiniargs] without a
    schema throws the [DuplicateFlagError] of that key with the inherited
    member as first value. *)
Theorem X2_inherited_name_collides
    (args : list string) (pre post : list FlagPair) (key : string) (v : FlagValue)
    (Hpairs : no_schema_pairs args = pre ++ (key, v) :: post)
    (Hpre : NoDup pre.*1 ∧ ∀ k, k ∈ pre.*1 → k ∉ Object_prototype)
    (Hkey : key ∈ Object_prototype) :
  tiniargs args None = Throw (DuplicateFlagError key (JInherited key) v).
Proof.
  destruct Hpre as [Hnd Hproto].
  rewrite tiniargs_no_schema, Hpairs, forEach_app.
  rewrite (proj2 (merge_from_empty pre (list_to_map pre))) by auto.
  cbn [bind forEach]. unfold merge_step, get.
  destruct (list_to_map pre !! key) as [w|] eqn:Hw.
  - apply elem_of_list_to_map_2 in Hw.
    exfalso. apply (Hproto key); [|exact Hkey].
    apply list_elem_of_fmap. exists (key, w). auto.
  - rewrite bool_decide_eq_true_2 by exact Hkey. reflexivity.
Qed.

Lemma X2_inherited_name_collides_witness :
  tiniargs ["--port=80"; "--toString=1"; "--x"] None
    = Throw (DuplicateFlagError "toString" (JInherited "toString") (VNumber (Integer false 1))).
Proof.
  apply (X2_inherited_name_collides ["--port=80"; "--toString=1"; "--x"]
           [("port", VNumber (Integer false 80))] [("x", VBoolean true)] "toString" (VNumber (Integer false 1))).
  - vm_compute. reflexivity.
  - split.
    + repeat constructor. set_solver.
    + intros k Hk. apply list_elem_of_singleton in Hk as ->.
      apply not_inherited. vm_compute. reflexivity.
  - apply is_inherited. vm_compute. reflexivity.
Defined.

(** ** What no-schema mode can produce *)

Lemma takeWhile_all (p : ascii → bool) (s : string) : Str.all p (Str.takeWhile p s) = true.
Proof.
  induction s as [|c t IH]; simpl; [reflexivity|].
  destruct (p c) eqn:Hc; simpl; [|reflexivity]. rewrite Hc. exact IH.
Qed.

Lemma match_key_val_shape (s key : string) (val : option string) :
  match_key_val s = Some (key, val) →
  key = Str.takeWhile is_word s ∧ ∀ v, val = Some v → Str.all is_dot v = true.
Proof.
  unfold match_key_val. destruct (Str.isEmpty (Str.takeWhile is_word s)); [discriminate|].
  destruct (Str.dropWhile is_word s) as [|d r].
  - intros [= <- <-]. split; [reflexivity | discriminate].
  - destruct (Ascii.eqb d "=").
    + intros [= <- <-]. split; [reflexivity|]. intros v [= <-]. apply takeWhile_all.
    + intros [= <- <-]. split; [reflexivity | discriminate].
Qed.

Lemma match_here_shape (s key : string) (val : option string) :
  match_here s = Some (key, val) →
  Str.all is_word key = true ∧ ∀ v, val = Some v → Str.all is_dot v = true.
Proof.
  assert (∀ u, match_key_val u = Some (key, val) →
               Str.all is_word key = true ∧ ∀ v, val = Some v → Str.all is_dot v = true) as H.
  { intros u Hu. apply match_key_val_shape in Hu as [-> Hv].
    split; [apply takeWhile_all | exact Hv]. }
  unfold match_here. destruct s as [|c t]; [discriminate|].
  destruct (Ascii.eqb c "-"); [|discriminate].
  destruct t as [|d u]; [apply H|].
  destruct (Ascii.eqb d "-"); [|apply H].
  destruct (match_key_val u) as [m|] eqn:Hu; [|apply H].
  intros [= ->]. exact (H u Hu).
Qed.

(** The captured key is a run of word characters and the captured value has
    no line terminator. *)
Lemma FLAG_REGEX_shape (arg key : string) (val : option string) :
  FLAG_REGEX arg = Some (key, val) →
  Str.all is_word key = true ∧ ∀ v, val = Some v → Str.all is_dot v = true.
Proof.
  induction arg as [|c t IH]; [discriminate|].
  cbn [FLAG_REGEX]. destruct (match_here (String c t)) as [m|] eqn:Hm; [|exact IH].
  intros [= ->]. exact (match_here_shape _ _ _ Hm).
Qed.

Lemma digit_value_nonneg (c : ascii) : is_digit c = true → 0 ≤ digit_value c.
Proof.
  destruct c as [[] [] [] [] [] [] [] []]; intros H; vm_compute in H; try discriminate H;
    vm_compute; discriminate.
Qed.

Lemma decimal_nonneg (s : string) : Str.all is_digit s = true → 0 ≤ decimal s.
Proof.
  induction s as [|c t IH]; simpl; [lia|].
  intros H. apply andb_prop in H as [Hc Ht].
  pose proof (digit_value_nonneg c Hc). specialize (IH Ht).
  assert (0 ≤ 10 ^ Z.of_nat (String.length t)) by (apply Z.pow_nonneg; lia).
  nia.
Qed.

Lemma parseFlagNoSchema_shape (arg k : string) (v : FlagValue) :
  Some (k, v) ∈ parseFlagNoSchema arg →
  k ≠ EmptyString ∧ Str.all is_word k = true ∧ no_schema_value v.
Proof.
  unfold parseFlagNoSchema.
  destruct (FLAG_REGEX arg) as [[key val]|] eqn:Hm.
  2:{ intros H. apply list_elem_of_singleton in H. discriminate. }
  pose proof (FLAG_REGEX_key _ _ _ Hm) as Hne.
  destruct (FLAG_REGEX_shape _ _ _ Hm) as [Hword Hval].
  assert (Some (k, v) ∈ [Some (key, or_true val)] →
          k ≠ EmptyString ∧ Str.all is_word k = true ∧ no_schema_value v) as Hplain.
  { intros H. apply list_elem_of_singleton in H. injection H as -> ->.
    repeat split; auto. destruct val as [w|]; cbn; auto. }
  destruct (NUMBER_REGEX val) eqn:Hn; [|exact Hplain].
  destruct (parseInt val) as [n|] eqn:Hp; [|exact Hplain].
  intros H. apply list_elem_of_singleton in H. injection H as -> ->.
  repeat split; auto. cbn.
  apply NUMBER_REGEX_spec in Hn as (ds & -> & Hds & Hall).
  rewrite (parseInt_digits ds Hds Hall) in Hp. injection Hp as <-.
  destruct (nearest_double_sign false (decimal ds) (decimal_nonneg ds Hall))
    as [-> | (m & Hm0 & ->)]; [exact I | exact Hm0].
Qed.

Lemma no_schema_pairs_elem (args : list string) (k : string) (v : FlagValue) :
  (k, v) ∈ no_schema_pairs args ↔ ∃ arg, arg ∈ args ∧ Some (k, v) ∈ parseFlagNoSchema arg.
Proof.
  unfold no_schema_pairs, parsedFlags. rewrite list_elem_of_omap. split.
  - intros (o & Ho & Hid). cbn in Hid. subst o.
    apply list_elem_of_In, in_concat in Ho as (l & Hl & Hin).
    apply list_elem_of_In, list_elem_of_fmap in Hl as (arg & -> & Harg).
    exists arg. split; [exact Harg | apply list_elem_of_In; exact Hin].
  - intros (arg & Harg & Hin). exists (Some (k, v)). split; [|reflexivity].
    apply list_elem_of_In, in_concat. exists (parseFlagNoSchema arg).
    split; apply list_elem_of_In; [apply list_elem_of_fmap_2; exact Harg | exact Hin].
Qed.

(** X3: whatever [tiniargs] returns without a schema, every key of the
    flags is a non-empty run of word characters, a boolean value is always
    [true], a number is never negative and a string value has no line
    terminator. *)
Theorem X3_no_schema_flag_shapes
    (args : list string) (r : ParsedArgs) (k : string) (v : FlagValue)
    (Hrun : tiniargs args None = Ok r)
    (Hflag : flags r !! k = Some v) :
  k ≠ EmptyString ∧ Str.all is_word k = true ∧ no_schema_value v.
Proof.
  rewrite tiniargs_no_schema in Hrun.
  destruct (forEach merge_step ∅ (no_schema_pairs args)) as [merged|] eqn:Hm;
    [|discriminate].
  injection Hrun as <-. cbn [flags] in Hflag.
  apply merge_from_empty in Hm as (_ & _ & ->).
  apply elem_of_list_to_map_2, no_schema_pairs_elem in Hflag as (arg & _ & Hin).
  exact (parseFlagNoSchema_shape arg k v Hin).
Qed.

Lemma X3_no_schema_flag_shapes_witness :
  "testflag" ≠ EmptyString ∧ Str.all is_word "testflag" = true ∧
  no_schema_value (VString "false").
Proof.
  apply (X3_no_schema_flag_shapes ["server"; "--testflag=false"; "-n=7"]
           {| positionals := ["server"];
              flags := <["testflag" := VString "false"]>
                         {[ "n" := VNumber (Integer false 7) ]} |});
    vm_compute; reflexivity.
Defined.

(** ** One dash or two, without a schema *)

Lemma FLAG_REGEX_dashes (s : string) :
  head_is_word s = true →
  FLAG_REGEX (String "-" s) = match_key_val s ∧
  FLAG_REGEX (String "-" (String "-" s)) = match_key_val s.
Proof.
  intros Hw. destruct s as [|c t]; [discriminate|]. cbn [head_is_word] in Hw.
  destruct (match_key_val (String c t)) as [m|] eqn:Hm.
  2:{ apply match_key_val_None in Hm. cbn [head_is_word] in Hm. congruence. }
  assert (Ascii.eqb c "-" = false) as Hc.
  { destruct (Ascii.eqb c "-") eqn:Hd; [|reflexivity].
    apply eqb_dash_not_word in Hd. congruence. }
  split; apply FLAG_REGEX_here; unfold match_here; rewrite Ascii.eqb_refl.
  - rewrite Hc. exact Hm.
  - rewrite Hm. reflexivity.
Qed.

(** X4: without a schema the number of dashes does not matter and short
    flags are not stacked: a dash and two dashes before the same text that
    starts with a word character give the same pair, whose key is the whole
    leading word, and exchanging the two tokens in the arguments does not
    change the result of [tiniargs]. *)
Theorem X4_no_schema_dash_count
    (s : string) (Hword : head_is_word s = true) :
  (∃ val, FLAG_REGEX (String "-" s) = Some (Str.takeWhile is_word s, val)) ∧
  parseFlagNoSchema (String "-" s) = parseFlagNoSchema (String "-" (String "-" s)) ∧
  ∀ pre post,
    tiniargs (pre ++ String "-" s :: post) None
      = tiniargs (pre ++ String "-" (String "-" s) :: post) None.
Proof.
  destruct (FLAG_REGEX_dashes s Hword) as [H1 H2].
  assert (parseFlagNoSchema (String "-" s) = parseFlagNoSchema (String "-" (String "-" s)))
    as Heq.
  { unfold parseFlagNoSchema. rewrite H1, H2. reflexivity. }
  split; [|split; [exact Heq|]].
  - rewrite H1. destruct (match_key_val s) as [[key val]|] eqn:Hm.
    + apply match_key_val_shape in Hm as [-> _]. eauto.
    + apply match_key_val_None in Hm. congruence.
  - intros pre post. rewrite !tiniargs_no_schema.
    unfold no_schema_pairs. rewrite !fmap_app, !fmap_cons, Heq.
    replace (filter_positionals (pre ++ String "-" s :: post))
      with (filter_positionals (pre ++ String "-" (String "-" s) :: post)); [reflexivity|].
    rewrite !filter_positionals_app. reflexivity.
Qed.

Lemma X4_no_schema_dash_count_witness :
  parseFlagNoSchema "-port=80" = parseFlagNoSchema "--port=80".
Proof.
  apply (X4_no_schema_dash_count "port=80"). reflexivity.
Defined.

(** ** Schema mode: what a result holds *)

Lemma find_long_Some (schemas : list FlagSchema) (key : string) (s : FlagSchema) :
  find_long schemas key = Some s → s ∈ schemas ∧ long s = key.
Proof.
  intros H. apply List.find_some in H as [Hin Hk].
  split; [apply list_elem_of_In; exact Hin | apply bool_decide_eq_true in Hk; exact Hk].
Qed.

Lemma find_short_Some (schemas : list FlagSchema) (c : string) (s : FlagSchema) :
  find_short schemas c = Some s → s ∈ schemas ∧ short s = Some c.
Proof.
  intros H. apply List.find_some in H as [Hin Hk].
  split; [apply list_elem_of_In; exact Hin | apply bool_decide_eq_true in Hk; exact Hk].
Qed.

Lemma short_loop_typed (schemas : list FlagSchema) (val : option string)
    (chars : list string) (acc out : list (option FlagPair)) :
  forEach (short_step schemas val) acc chars = Ok out →
  (∀ p, Some p ∈ acc → typed_by schemas p) →
  ∀ p, Some p ∈ out → typed_by schemas p.
Proof.
  revert acc. induction chars as [|c chars IH]; intros acc.
  - cbn. intros [= <-]. auto.
  - cbn [forEach]. destruct (short_step schemas val acc c) as [acc'|] eqn:Hstep;
      [|discriminate].
    cbn [bind]. intros Hloop Hacc. apply (IH acc' Hloop).
    unfold short_step in Hstep.
    destruct (find_short schemas c) as [s|] eqn:Hfind; [|discriminate].
    destruct (bool_decide_reflect (valueType s = "boolean")) as [Hb|]; [|discriminate].
    injection Hstep as <-. intros p Hp. apply elem_of_app in Hp as [Hp|Hp]; [auto|].
    apply list_elem_of_singleton in Hp. injection Hp as ->.
    apply find_short_Some in Hfind as [Hin _].
    exists s. cbn. rewrite Hb. auto.
Qed.

(** Every pair that the schema parser emits is typed by an entry. *)
Lemma parse_emits_typed (schemas : list FlagSchema) (arg : string)
    (emitted : list (option FlagPair)) (p : FlagPair) :
  parseFlagWithShema schemas arg = Ok emitted → Some p ∈ emitted → typed_by schemas p.
Proof.
  unfold parseFlagWithShema.
  destruct (FLAG_REGEX arg) as [[key val]|].
  2:{ intros [= <-] H. apply list_elem_of_singleton in H. discriminate. }
  destruct (negb (Str.startsWith arg "--")).
  { intros Hloop. apply (short_loop_typed schemas val _ [] emitted Hloop).
    intros q Hq. inversion Hq. }
  destruct (find_long schemas key) as [s|] eqn:Hfind; [|discriminate].
  apply find_long_Some in Hfind as [Hin Hlong]. cbv zeta.
  assert (∀ v, typeof v = valueType s →
               Some p ∈ [Some (long s, v)] → typed_by schemas p) as Hone.
  { intros v Hv H. apply list_elem_of_singleton in H. injection H as ->.
    exists s. auto. }
  destruct (bool_decide_reflect (valueType s = "number")) as [Hn|_].
  { destruct (parseInt val); [|discriminate]. intros [= <-]. apply Hone. auto. }
  destruct (bool_decide_reflect (valueType s = "boolean")) as [Hb|_].
  { destruct (truthy val && _ && _); [discriminate|]. intros [= <-]. apply Hone. auto. }
  destruct (bool_decide_reflect (valueType s = "string")) as [Hs|_].
  { destruct val as [v|]; [|discriminate].
    destruct (Str.isEmpty v); [discriminate|]. intros [= <-]. apply Hone. auto. }
  intros [= <-] H. apply list_elem_of_singleton in H. discriminate.
Qed.

Lemma mapM_elem_of_result {A B : Type} (f : A → result B) (xs : list A) (ys : list B) (y : B) :
  mapM f xs = Ok ys → y ∈ ys → ∃ x, x ∈ xs ∧ f x = Ok y.
Proof.
  revert ys. induction xs as [|a xs IH]; intros ys Hm Hin.
  - injection Hm as <-. inversion Hin.
  - cbn [mapM] in Hm. destruct (f a) as [b|] eqn:Ha; [|discriminate]. cbn [bind] in Hm.
    destruct (mapM f xs) as [bs|]; [|discriminate]. injection Hm as <-.
    apply elem_of_cons in Hin as [->|Hin].
    + exists a. split; [left | exact Ha].
    + destruct (IH bs eq_refl Hin) as (x & Hx & Hfx).
      exists x. split; [right; exact Hx | exact Hfx].
Qed.

Lemma parsedFlags_elem (parsed : list (list (option FlagPair))) (p : FlagPair) :
  p ∈ parsedFlags parsed ↔ ∃ emitted, emitted ∈ parsed ∧ Some p ∈ emitted.
Proof.
  unfold parsedFlags. rewrite list_elem_of_omap. split.
  - intros (o & Ho & Hid). cbn in Hid. subst o.
    apply list_elem_of_In, in_concat in Ho as (l & Hl & Hin).
    exists l. split; apply list_elem_of_In; assumption.
  - intros (l & Hl & Hin). exists (Some p). split; [|reflexivity].
    apply list_elem_of_In, in_concat. exists l. split; apply list_elem_of_In; assumption.
Qed.

Lemma entry_ok_default (s : FlagSchema) (d : FlagValue) :
  entry_ok s = true → defaultValue s = Some d → typeof d = valueType s.
Proof.
  unfold entry_ok. intros H Hd. rewrite Hd in H.
  apply andb_prop in H as [H _]. apply andb_prop in H as [_ H].
  apply bool_decide_eq_true in H. exact H.
Qed.

(** X5: every flag of a result in schema mode is declared and well typed:
    its key is the long name of a schema entry and its value has the type
    that the entry declares, whether the value was parsed from a token or
    filled in from a default. *)
Theorem X5_schema_flags_are_typed
    (args : list string) (schema : list FlagSchema) (r : ParsedArgs)
    (k : string) (v : FlagValue)
    (Hrun : tiniargs args (Some schema) = Ok r)
    (Hflag : flags r !! k = Some v) :
  ∃ s, s ∈ schema ∧ long s = k ∧ typeof v = valueType s.
Proof.
  apply tiniargs_schema_Ok in Hrun as (parsed & merged & Hvalid & Hp & Hm & _ & ->).
  cbn [flags] in Hflag.
  apply defaults_only_fill in Hflag as [Hflag|(_ & s & Hin & Hlong & Hd)].
  - apply merge_from_empty in Hm as (_ & _ & ->).
    apply elem_of_list_to_map_2, parsedFlags_elem in Hflag as (emitted & He & Hin).
    destruct (mapM_elem_of_result _ _ _ _ Hp He) as (arg & _ & Harg).
    exact (parse_emits_typed schema arg emitted (k, v) Harg Hin).
  - apply with_default_elem in Hin as (Hin & _ & _).
    apply validateSchema_Ok in Hvalid as [_ (Hok & _ & _)].
    rewrite List.Forall_forall in Hok.
    exists s. repeat split; auto.
    apply entry_ok_default; [apply Hok, list_elem_of_In; exact Hin | exact Hd].
Qed.

Lemma X5_schema_flags_are_typed_witness :
  ∃ s, s ∈ [entry "testflag" "l" "number"; optional_entry "mode" "string" (Some (VString "dev"))]
       ∧ long s = "mode" ∧ typeof (VString "dev") = valueType s.
Proof.
  apply (X5_schema_flags_are_typed ["server"; "--testflag=28621"]
           [entry "testflag" "l" "number"; optional_entry "mode" "string" (Some (VString "dev"))]
           {| positionals := ["server"];
              flags := <["testflag" := VNumber (Integer false 28621)]> {[ "mode" := VString "dev" ]} |});
    vm_compute; reflexivity.
Defined.

(** X6: in a result of schema mode every required entry is there: its long
    name is a key of the flags, unless the name is one that every object
    inherits from [Object.prototype], for which the presence test of the
    code succeeds without a flag. *)
Theorem X6_required_flags_present
    (args : list string) (schema : list FlagSchema) (r : ParsedArgs) (s : FlagSchema)
    (Hrun : tiniargs args (Some schema) = Ok r)
    (Hentry : s ∈ schema) (Hrequired : required s = Some true) :
  is_Some (flags r !! long s) ∨ long s ∈ Object_prototype.
Proof.
  apply tiniargs_schema_Ok in Hrun as (parsed & merged & _ & _ & _ & Hnone & ->).
  cbn [flags]. unfold first_missing in Hnone.
  apply list_elem_of_In in Hentry.
  pose proof (List.find_none _ _ Hnone s Hentry) as H. cbn beta in H.
  rewrite bool_decide_eq_true_2 in H by exact Hrequired. cbn [andb] in H.
  unfold get in H. destruct (merged !! long s) as [v|] eqn:Hv.
  - left. exists v. apply defaults_keep. exact Hv.
  - right. destruct (bool_decide_reflect (long s ∈ Object_prototype)); [assumption|discriminate].
Qed.

Lemma X6_required_flags_present_witness :
  is_Some (flags {| positionals := []; flags := {[ "aa" := VBoolean true ]} |}
             !! long (required_entry "aa" "boolean" None))
  ∨ long (required_entry "aa" "boolean" None) ∈ Object_prototype.
Proof.
  apply (X6_required_flags_present ["--aa"] [required_entry "aa" "boolean" None]
           {| positionals := []; flags := {[ "aa" := VBoolean true ]} |}
           (required_entry "aa" "boolean" None)).
  - vm_compute. reflexivity.
  - left.
  - reflexivity.
Defined.

(** ** Schema mode: boolean and number flags, unknown flags *)

Lemma parseInt_skip_white_space (ws s : string) :
  Str.all is_white_space ws = true → parseInt (Some (ws +:+ s)) = parseInt (Some s).
Proof.
  intros Hws. unfold parseInt, ToString.
  assert (Str.dropWhile is_white_space (ws +:+ s) = Str.dropWhile is_white_space s) as ->;
    [|reflexivity].
  induction ws as [|c t IH]; [reflexivity|].
  simpl in Hws. apply andb_prop in Hws as [Hc Ht].
  rewrite append_cons. cbn [Str.dropWhile]. rewrite Hc. auto.
Qed.

Lemma parseInt_negative (ds rest : string) :
  ds ≠ EmptyString → Str.all is_digit ds = true →
  Str.takeWhile is_digit rest = EmptyString →
  parseInt (Some (String "-" (ds +:+ rest))) = Some (nearest_double true (decimal ds)).
Proof.
  intros Hne Hds Hrest.
  pose proof (mathInt_prefix ds rest 0 Hds Hrest) as Hread.
  destruct ds as [|c t]; [congruence|].
  simpl in Hds. apply andb_prop in Hds as [Hc _].
  rewrite append_cons in *.
  unfold parseInt, ToString. cbn [Str.dropWhile].
  change (is_white_space "-") with false. cbn iota.
  rewrite Ascii.eqb_refl, Hc, Hread. repeat (f_equal; try lia).
Qed.

Lemma parseInt_not_a_number (c : ascii) (rest : string) :
  is_white_space c = false → Ascii.eqb c "-" = false → Ascii.eqb c "+" = false →
  is_digit c = false →
  parseInt (Some (String c rest)) = None.
Proof.
  intros Hws Hminus Hplus Hdigit. unfold parseInt, ToString. cbn [Str.dropWhile].
  rewrite Hws, Hminus, Hplus, Hdigit. reflexivity.
Qed.

(** X7: a boolean flag in long form is [true] when the captured value is
    absent, empty or the text [true], [false] when it is the text [false],
    and any other value makes [tiniargs] fail with a [FlagParseError] that
    carries the key and the given value. *)
Theorem X7_boolean_flag_values
    (schemas : list FlagSchema) (arg k : string) (val : option string) (s : FlagSchema)
    (Hvalid : validateSchema schemas = Ok schemas)
    (Hentry : s ∈ schemas) (Hlong : long s = k) (Htype : valueType s = "boolean")
    (Hdouble : Str.startsWith arg "--" = true)
    (Hmatch : FLAG_REGEX arg = Some (k, val)) :
  (val = None ∨ val = Some EmptyString ∨ val = Some "true" →
     parseFlagWithShema schemas arg = Ok [Some (k, VBoolean true)]) ∧
  (val = Some "false" →
     parseFlagWithShema schemas arg = Ok [Some (k, VBoolean false)]) ∧
  (∀ v, val = Some v → v ≠ EmptyString → v ≠ "true" → v ≠ "false" →
     token_throws schemas arg (err_boolean k val)).
Proof.
  pose proof (long_form schemas arg k val s Hvalid Hentry Hlong Hdouble Hmatch) as Hparse.
  rewrite Htype in Hparse. cbn [bool_decide decide_rel] in Hparse.
  rewrite (bool_decide_eq_false_2 ("boolean" = "number")) in Hparse by discriminate.
  rewrite (bool_decide_eq_true_2 ("boolean" = "boolean")) in Hparse by reflexivity.
  split; [|split].
  - intros [-> | [-> | ->]]; rewrite Hparse; reflexivity.
  - intros ->. rewrite Hparse. reflexivity.
  - intros v -> Hne Ht Hf. apply token_throws_intro; [exact Hvalid|].
    rewrite Hparse. cbn [truthy].
    rewrite !bool_decide_eq_false_2 by congruence.
    destruct v; [congruence | reflexivity].
Qed.

Lemma X7_boolean_flag_values_witness :
  let schemas := [entry "testflag" "l" "boolean"] in
  parseFlagWithShema schemas "--testflag=false" = Ok [Some ("testflag", VBoolean false)] ∧
  token_throws schemas "--testflag=4334" (err_boolean "testflag" (Some "4334")).
Proof.
  cbv zeta. split.
  - refine (proj1 (proj2 (X7_boolean_flag_values
                            [entry "testflag" "l" "boolean"] "--testflag=false" "testflag"
                            (Some "false") (entry "testflag" "l" "boolean")
                            _ _ eq_refl eq_refl eq_refl _)) eq_refl);
      try (vm_compute; reflexivity). set_solver.
  - refine (proj2 (proj2 (X7_boolean_flag_values
                            [entry "testflag" "l" "boolean"] "--testflag=4334" "testflag"
                            (Some "4334") (entry "testflag" "l" "boolean")
                            _ _ eq_refl eq_refl eq_refl _)) "4334" eq_refl _ _ _);
      try (vm_compute; reflexivity); try discriminate. set_solver.
Defined.

(** X8: a number flag in long form fails with a [FlagParseError] that
    carries the key and the given value when the value is absent or empty,
    or starts with a character that is neither white space, a sign nor a
    digit; the message then shows the text [undefined] for an absent value.
    A value made of white space, a minus sign and digits, followed by
    anything that does not start with a digit, is the negative double
    nearest to the integer of those digits: the negative of that integer
    when it is below 2^53, which for zero is the negative zero. *)
Theorem X8_number_flag_edges
    (schemas : list FlagSchema) (arg k : string) (val : option string) (s : FlagSchema)
    (Hvalid : validateSchema schemas = Ok schemas)
    (Hentry : s ∈ schemas) (Hlong : long s = k) (Htype : valueType s = "number")
    (Hdouble : Str.startsWith arg "--" = true)
    (Hmatch : FLAG_REGEX arg = Some (k, val)) :
  (val = None ∨ val = Some EmptyString →
     token_throws schemas arg (err_number k val)) ∧
  (∀ c rest,
     val = Some (String c rest) →
     is_white_space c = false → Ascii.eqb c "-" = false → Ascii.eqb c "+" = false →
     is_digit c = false →
     token_throws schemas arg (err_number k val)) ∧
  (∀ ws ds rest,
     val = Some (ws +:+ String "-" (ds +:+ rest)) →
     Str.all is_white_space ws = true →
     ds ≠ EmptyString → Str.all is_digit ds = true →
     Str.takeWhile is_digit rest = EmptyString →
     parseFlagWithShema schemas arg
       = Ok [Some (k, VNumber (nearest_double true (decimal ds)))] ∧
     (decimal ds < 2 ^ 53 →
      parseFlagWithShema schemas arg = Ok [Some (k, VNumber (Integer true (decimal ds)))])).
Proof.
  pose proof (long_form schemas arg k val s Hvalid Hentry Hlong Hdouble Hmatch) as Hparse.
  rewrite Htype in Hparse.
  rewrite (bool_decide_eq_true_2 ("number" = "number")) in Hparse by reflexivity.
  split; [|split].
  - intros Hval. apply token_throws_intro; [exact Hvalid|].
    rewrite Hparse. destruct Hval as [-> | ->]; reflexivity.
  - intros c rest -> Hws Hminus Hplus Hdigit. apply token_throws_intro; [exact Hvalid|].
    rewrite Hparse, (parseInt_not_a_number c rest Hws Hminus Hplus Hdigit). reflexivity.
  - intros ws ds rest -> Hws Hne Hds Hrest.
    rewrite Hparse, (parseInt_skip_white_space ws _ Hws),
      (parseInt_negative ds rest Hne Hds Hrest).
    split; [reflexivity|].
    intros Hsmall. rewrite (nearest_double_exact true _ Hsmall). reflexivity.
Qed.

Lemma X8_number_flag_edges_witness :
  let schemas := [entry "testflag" "l" "number"] in
  token_throws schemas "--testflag" (err_number "testflag" None) ∧
  token_throws schemas "--testflag=testflagval" (err_number "testflag" (Some "testflagval")) ∧
  parseFlagWithShema schemas "--testflag= -42px" = Ok [Some ("testflag", VNumber (Integer true 42))].
Proof.
  cbv zeta.
  assert (entry "testflag" "l" "number" ∈ [entry "testflag" "l" "number"]) as Hin
    by set_solver.
  split; [|split].
  - refine (proj1 (X8_number_flag_edges
                     [entry "testflag" "l" "number"] "--testflag" "testflag" None
                     (entry "testflag" "l" "number") _ Hin eq_refl eq_refl eq_refl _) _);
      try (vm_compute; reflexivity). left. reflexivity.
  - refine (proj1 (proj2 (X8_number_flag_edges
                     [entry "testflag" "l" "number"] "--testflag=testflagval" "testflag"
                     (Some "testflagval")
                     (entry "testflag" "l" "number") _ Hin eq_refl eq_refl eq_refl _))
              "t"%char "estflagval" eq_refl _ _ _ _);
      vm_compute; reflexivity.
  - refine (proj2 (proj2 (proj2 (X8_number_flag_edges
                     [entry "testflag" "l" "number"] "--testflag= -42px" "testflag"
                     (Some " -42px")
                     (entry "testflag" "l" "number") _ Hin eq_refl eq_refl eq_refl _))
              " " "42" "px" eq_refl _ _ _ _) _);
      try (vm_compute; reflexivity). discriminate.
Defined.

Lemma find_long_absent (schemas : list FlagSchema) (key : string) :
  (∀ s, s ∈ schemas → long s ≠ key) → find_long schemas key = None.
Proof.
  unfold find_long. induction schemas as [|x l IH]; intros H; [reflexivity|].
  cbn [List.find]. rewrite bool_decide_eq_false_2 by (apply H; left).
  apply IH. intros s Hs. apply H. right. exact Hs.
Qed.

(** X9: a token in long form whose key is not the long name of a schema
    entry makes [tiniargs] fail with [UnknownFlagError] for that key with
    [isShort = false], also when the key is the short name of an entry:
    the long form never looks at short names. *)
Theorem X9_unknown_long_flag
    (schemas : list FlagSchema) (arg key : string) (val : option string)
    (Hvalid : validateSchema schemas = Ok schemas)
    (Hdouble : Str.startsWith arg "--" = true)
    (Hmatch : FLAG_REGEX arg = Some (key, val))
    (Hunknown : ∀ s, s ∈ schemas → long s ≠ key) :
  token_throws schemas arg (UnknownFlagError key false).
Proof.
  apply token_throws_intro; [exact Hvalid|].
  unfold parseFlagWithShema. rewrite Hmatch, Hdouble. cbn [negb].
  rewrite (find_long_absent schemas key Hunknown). reflexivity.
Qed.

Lemma X9_unknown_long_flag_witness :
  token_throws [entry "fake" "f" "boolean"] "--f" (UnknownFlagError "f" false).
Proof.
  apply (X9_unknown_long_flag [entry "fake" "f" "boolean"] "--f" "f" None);
    try (vm_compute; reflexivity).
  intros s Hs. apply list_elem_of_singleton in Hs as ->. discriminate.
Defined.

(** ** Schema mode: the value of a token in short form *)

Lemma short_loop_value (schemas : list FlagSchema) (val val' : option string)
    (chars : list string) (acc out : list (option FlagPair)) :
  forEach (short_step schemas val) acc chars = Ok out →
  forEach (short_step schemas val') acc chars = Ok out.
Proof.
  revert acc. induction chars as [|c chars IH]; intros acc; [auto|].
  cbn [forEach].
  assert (∀ acc', short_step schemas val acc c = Ok acc' →
                  short_step schemas val' acc c = Ok acc') as Hstep.
  { intros acc'. unfold short_step. destruct (find_short schemas c) as [s|]; [|discriminate].
    destruct (negb (bool_decide (valueType s = "boolean"))); [discriminate | auto]. }
  destruct (short_step schemas val acc c) as [acc'|] eqn:H; [|discriminate].
  rewrite (Hstep acc' eq_refl). cbn [bind]. apply IH.
Qed.

(** X10: in short form the value of a token is not used: two tokens that
    do not start with two dashes and capture the same key emit the same
    pairs whatever follows the key, so ['-f=x'] sets the same flags as
    ['-f']. *)
Theorem X10_short_form_ignores_value
    (schemas : list FlagSchema) (arg arg' key : string) (val val' : option string)
    (emitted : list (option FlagPair))
    (Hsingle : Str.startsWith arg "--" = false)
    (Hsingle' : Str.startsWith arg' "--" = false)
    (Hmatch : FLAG_REGEX arg = Some (key, val))
    (Hmatch' : FLAG_REGEX arg' = Some (key, val'))
    (Hemit : parseFlagWithShema schemas arg = Ok emitted) :
  parseFlagWithShema schemas arg' = Ok emitted.
Proof.
  unfold parseFlagWithShema in *.
  rewrite Hmatch, Hsingle in Hemit. rewrite Hmatch', Hsingle'. cbn [negb] in *.
  exact (short_loop_value schemas val val' _ [] emitted Hemit).
Qed.

Lemma X10_short_form_ignores_value_witness :
  parseFlagWithShema [entry "fake" "f" "boolean"] "-f=false"
    = Ok [Some ("fake", VBoolean true)].
Proof.
  apply (X10_short_form_ignores_value [entry "fake" "f" "boolean"] "-f" "-f=false" "f"
           None (Some "false")); vm_compute; reflexivity.
Defined.

(** ** The order of the arguments *)

Lemma mapM_Permutation {A B : Type} (f : A → result B) (xs xs' : list A) (ys : list B) :
  Permutation xs xs' → mapM f xs = Ok ys →
  ∃ ys', mapM f xs' = Ok ys' ∧ Permutation ys ys'.
Proof.
  intros HP. revert ys. induction HP as [|x l l' _ IH|x y l|l l' l'' _ IH1 _ IH2]; intros ys.
  - intros [= <-]. exists []. split; [reflexivity | constructor].
  - cbn [mapM]. destruct (f x) as [b|]; [|discriminate]. cbn [bind].
    destruct (mapM f l) as [bs|]; [|discriminate]. intros [= <-].
    destruct (IH bs eq_refl) as (bs' & -> & Hbs).
    exists (b :: bs'). split; [reflexivity | constructor; exact Hbs].
  - cbn [mapM]. destruct (f y) as [b|]; [|discriminate]. cbn [bind].
    destruct (f x) as [a|]; [|discriminate]. cbn [bind].
    destruct (mapM f l) as [bs|]; [|discriminate]. intros [= <-].
    exists (a :: b :: bs). split; [reflexivity | apply perm_swap].
  - intros H. destruct (IH1 ys H) as (ys' & H' & HP1).
    destruct (IH2 ys' H') as (ys'' & H'' & HP2).
    exists ys''. split; [exact H'' | etransitivity; eassumption].
Qed.

Lemma parsedFlags_cons (emitted : list (option FlagPair))
    (parsed : list (list (option FlagPair))) :
  parsedFlags (emitted :: parsed) = omap id emitted ++ parsedFlags parsed.
Proof. unfold parsedFlags. cbn [concat]. apply omap_app. Qed.

Lemma parsedFlags_Permutation (parsed parsed' : list (list (option FlagPair))) :
  Permutation parsed parsed' → Permutation (parsedFlags parsed) (parsedFlags parsed').
Proof.
  induction 1 as [|x l l' _ IH|x y l|l l' l'' _ IH1 _ IH2].
  - constructor.
  - rewrite !parsedFlags_cons. apply Permutation_app_head. exact IH.
  - rewrite !parsedFlags_cons, !app_assoc.
    apply Permutation_app_tail, Permutation_app_comm.
  - etransitivity; eassumption.
Qed.

Lemma filter_positionals_Permutation (args args' : list string) :
  Permutation args args' → Permutation (filter_positionals args) (filter_positionals args').
Proof.
  unfold filter_positionals.
  induction 1 as [|x l l' _ IH|x y l|l l' l'' _ IH1 _ IH2]; cbn [List.filter].
  - constructor.
  - destruct (negb (Str.startsWith x "-")); [constructor|]; exact IH.
  - destruct (negb (Str.startsWith x "-")), (negb (Str.startsWith y "-"));
      try reflexivity. apply perm_swap.
  - etransitivity; eassumption.
Qed.

Lemma merge_Permutation (pairs pairs' : list FlagPair) (merged : gmap string FlagValue) :
  Permutation pairs pairs' →
  forEach merge_step ∅ pairs = Ok merged → forEach merge_step ∅ pairs' = Ok merged.
Proof.
  intros HP Hm. apply merge_from_empty in Hm as (Hnd & Hproto & ->).
  apply merge_from_empty. repeat split.
  - rewrite <- HP. exact Hnd.
  - intros k Hk. apply Hproto. rewrite HP. exact Hk.
  - apply list_to_map_proper; assumption.
Qed.

(** X11: when [tiniargs] returns, the order of the arguments does not
    matter for the flags: every rearrangement of the arguments returns as
    well, with the same flags and the same positionals up to order. *)
Theorem X11_flags_do_not_depend_on_order
    (args args' : list string) (schema : option (list FlagSchema)) (r : ParsedArgs)
    (Hperm : Permutation args args')
    (Hrun : tiniargs args schema = Ok r) :
  ∃ r', tiniargs args' schema = Ok r' ∧
        flags r' = flags r ∧ Permutation (positionals r) (positionals r').
Proof.
  unfold tiniargs in *.
  destruct (flagParseFn schema) as [fn|]; [|discriminate]. cbn [bind] in *.
  destruct (mapM fn args) as [parsed|] eqn:Hp; [|discriminate]. cbn [bind] in Hrun.
  destruct (mapM_Permutation fn args args' parsed Hperm Hp) as (parsed' & -> & HP).
  cbn [bind].
  destruct (forEach merge_step ∅ (parsedFlags parsed)) as [merged|] eqn:Hm; [|discriminate].
  rewrite (merge_Permutation _ _ merged (parsedFlags_Permutation _ _ HP) Hm).
  cbn [bind] in *.
  destruct (match schema with
            | Some schema0 => apply_schema schema0 merged
            | None => Ok merged
            end) as [final|]; [|discriminate].
  cbn [bind] in *. injection Hrun as <-.
  eexists. split; [reflexivity|]. cbn [flags positionals].
  split; [reflexivity | apply filter_positionals_Permutation; exact Hperm].
Qed.

Lemma X11_flags_do_not_depend_on_order_witness :
  ∃ r', tiniargs ["--b=2"; "x"; "--a"; "y"] None = Ok r' ∧
        flags r' = flags {| positionals := ["y"; "x"];
                            flags := <["a" := VBoolean true]> {[ "b" := VNumber (Integer false 2) ]} |} ∧
        Permutation ["y"; "x"] (positionals r').
Proof.
  apply (X11_flags_do_not_depend_on_order ["y"; "--a"; "x"; "--b=2"]
           ["--b=2"; "x"; "--a"; "y"] None
           {| positionals := ["y"; "x"];
              flags := <["a" := VBoolean true]> {[ "b" := VNumber (Integer false 2) ]} |}).
  - change ["--b=2"; "x"; "--a"; "y"] with (rev ["y"; "--a"; "x"; "--b=2"]).
    apply Permutation_rev.
  - vm_compute. reflexivity.
Defined.

(** ** A validated schema *)

Lemma entry_ok_spec (s : FlagSchema) :
  entry_ok s = true ↔
    (1 < String.length (long s))%nat ∧
    (∀ sh, short s = Some sh → String.length sh = 1%nat) ∧
    (∀ d, defaultValue s = Some d → typeof d = valueType s) ∧
    (valueType s = "string" ∨ valueType s = "number" ∨ valueType s = "boolean").
Proof.
  unfold entry_ok. rewrite !andb_true_iff, negb_true_iff, Nat.leb_gt, bool_decide_eq_true.
  assert (valueType s ∈ ["string"; "number"; "boolean"] ↔
          valueType s = "string" ∨ valueType s = "number" ∨ valueType s = "boolean") as ->.
  { rewrite !elem_of_cons, elem_of_nil. tauto. }
  assert (match short s with
          | Some sh => Nat.eqb (String.length sh) 1
          | None => true
          end = true ↔ ∀ sh, short s = Some sh → String.length sh = 1%nat) as ->.
  { destruct (short s) as [sh|].
    - rewrite Nat.eqb_eq. split; [intros H ? [= <-]; exact H | auto].
    - split; [discriminate | reflexivity]. }
  assert (match defaultValue s with
          | Some d => bool_decide (typeof d = valueType s)
          | None => true
          end = true ↔ ∀ d, defaultValue s = Some d → typeof d = valueType s) as ->.
  { destruct (defaultValue s) as [d|].
    - rewrite bool_decide_eq_true. split; [intros H ? [= <-]; exact H | auto].
    - split; [discriminate | reflexivity]. }
  tauto.
Qed.

(** X12: [validateSchema] accepts a schema, returning it, exactly when
    every long name has more than one character, every short name that is
    present has exactly one, every default has the declared type, every
    value type is one of the three tags, and no long name and no short name
    occurs twice; every other schema is rejected with an exception. *)
Theorem X12_validated_schema_invariant (schema : list FlagSchema) :
  validateSchema schema = Ok schema ↔
    (∀ s, s ∈ schema →
       (1 < String.length (long s))%nat ∧
       (∀ sh, short s = Some sh → String.length sh = 1%nat) ∧
       (∀ d, defaultValue s = Some d → typeof d = valueType s) ∧
       (valueType s = "string" ∨ valueType s = "number" ∨ valueType s = "boolean")) ∧
    NoDup (long <$> schema) ∧
    NoDup (omap short schema).
Proof.
  rewrite validateSchema_Ok. unfold well_formed.
  rewrite List.Forall_forall.
  assert ((∀ s, In s schema → entry_ok s = true) ↔
          (∀ s, s ∈ schema →
             (1 < String.length (long s))%nat ∧
             (∀ sh, short s = Some sh → String.length sh = 1%nat) ∧
             (∀ d, defaultValue s = Some d → typeof d = valueType s) ∧
             (valueType s = "string" ∨ valueType s = "number" ∨ valueType s = "boolean")))
    as ->.
  { split; intros H s Hs.
    - apply entry_ok_spec, H, list_elem_of_In, Hs.
    - apply entry_ok_spec, H, list_elem_of_In, Hs. }
  tauto.
Qed.

(** ** The two revisions *)

Lemma find_fmap {A B : Type} (p : B → bool) (f : A → B) (l : list A) :
  List.find p (f <$> l) = f <$> List.find (λ x, p (f x)) l.
Proof.
  induction l as [|x l IH]; [reflexivity|].
  cbn [fmap list_fmap List.find]. destruct (p (f x)); [reflexivity | exact IH].
Qed.

Lemma forEach_ext {A S : Type} (f g : S → A → result S) (st : S) (xs : list A) :
  (∀ st x, f st x = g st x) → forEach f st xs = forEach g st xs.
Proof.
  intros H. revert st. induction xs as [|x xs IH]; intros st; [reflexivity|].
  cbn [forEach]. rewrite H. destruct (g st x); cbn [bind]; auto.
Qed.

Lemma forEach_fmap {A B S : Type} (f : S → B → result S) (g : A → B) (st : S) (xs : list A) :
  forEach f st (g <$> xs) = forEach (λ st x, f st (g x)) st xs.
Proof.
  revert st. induction xs as [|x xs IH]; intros st; [reflexivity|].
  cbn [fmap list_fmap forEach]. destruct (f st (g x)); cbn [bind]; auto.
Qed.

Lemma mapM_ext {A B : Type} (f g : A → result B) (xs : list A) :
  (∀ x, f x = g x) → mapM f xs = mapM g xs.
Proof.
  intros H. induction xs as [|x xs IH]; [reflexivity|].
  cbn [mapM]. rewrite H, IH. reflexivity.
Qed.

Lemma upgrade_find_long (schemas : list Earlier.FlagSchema) (key : string) :
  find_long (upgrade <$> schemas) key = upgrade <$> Earlier.find_long schemas key.
Proof. unfold find_long, Earlier.find_long. apply find_fmap. Qed.

Lemma upgrade_find_short (schemas : list Earlier.FlagSchema) (char : string) :
  find_short (upgrade <$> schemas) char = upgrade <$> Earlier.find_short schemas char.
Proof.
  unfold find_short, Earlier.find_short. rewrite find_fmap. f_equal.
  induction schemas as [|s l IH]; [reflexivity|]. cbn [List.find upgrade short].
  rewrite (bool_decide_ext (Some (Earlier.short s) = Some char) (Earlier.short s = char))
    by (split; congruence).
  destruct (bool_decide (Earlier.short s = char)); [reflexivity | exact IH].
Qed.

Lemma upgrade_short_step (schemas : list Earlier.FlagSchema) (val : option string)
    (acc : list (option FlagPair)) (char : string) :
  Earlier.short_step schemas val acc char = short_step (upgrade <$> schemas) val acc char.
Proof.
  unfold Earlier.short_step, short_step. rewrite upgrade_find_short.
  destruct (Earlier.find_short schemas char); reflexivity.
Qed.

Lemma upgrade_parse (schemas : list Earlier.FlagSchema) (arg : string) :
  Earlier.parseFlagWithShema schemas arg = parseFlagWithShema (upgrade <$> schemas) arg.
Proof.
  unfold Earlier.parseFlagWithShema, parseFlagWithShema.
  destruct (FLAG_REGEX arg) as [[key val]|]; [|reflexivity].
  destruct (negb (Str.startsWith arg "--")).
  - apply forEach_ext. intros st x. apply upgrade_short_step.
  - rewrite upgrade_find_long. destruct (Earlier.find_long schemas key); reflexivity.
Qed.

Lemma upgrade_validate_step (seen : gset string * gset string) (s : Earlier.FlagSchema) :
  Earlier.validate_step seen s = validate_step seen (upgrade s).
Proof.
  unfold Earlier.validate_step, validate_step. destruct seen as [longFlags shortFlags].
  cbn [upgrade long short defaultValue valueType].
  destruct (throw_if (Nat.leb (String.length (Earlier.long s)) 1) _); [|reflexivity].
  cbn [bind]. destruct (throw_if (bool_decide (Earlier.long s ∈ longFlags)) _); reflexivity.
Qed.

Lemma upgrade_validateSchema (schemas : list Earlier.FlagSchema) :
  validateSchema (upgrade <$> schemas) =
    match Earlier.validateSchema schemas with
    | Ok _ => Ok (upgrade <$> schemas)
    | Throw e => Throw e
    end.
Proof.
  unfold validateSchema, Earlier.validateSchema. rewrite forEach_fmap.
  rewrite (forEach_ext _ Earlier.validate_step)
    by (intros; symmetry; apply upgrade_validate_step).
  destruct (forEach Earlier.validate_step (∅, ∅) schemas); reflexivity.
Qed.

Lemma upgrade_apply_schema (schemas : list Earlier.FlagSchema) (flags : gmap string FlagValue) :
  apply_schema (upgrade <$> schemas) flags = Ok flags.
Proof.
  unfold apply_schema.
  assert (∀ p, (∀ s, p (upgrade s) = false) →
               List.filter p (upgrade <$> schemas) = []) as Hnone.
  { intros p Hp. induction schemas as [|s l IH]; [reflexivity|].
    cbn [fmap list_fmap List.filter]. rewrite Hp. exact IH. }
  rewrite !Hnone by reflexivity. reflexivity.
Qed.

(** X13: the earlier revision is the later one restricted to entries with
    a short name and without [required] and [defaultValue]: on every
    argument list and schema the earlier [tiniargs] returns or throws what
    the later one does for the same entries. *)
Theorem X13_earlier_revision_agrees
    (args : list string) (schema : option (list Earlier.FlagSchema)) :
  Earlier.tiniargs args schema = tiniargs args (upgrade_schema schema).
Proof.
  unfold Earlier.tiniargs, tiniargs. destruct schema as [schemas|]; [|cbn].
  2:{ destruct (mapM _ args); cbn [bind]; [|reflexivity].
      destruct (forEach merge_step ∅ _); reflexivity. }
  cbn [upgrade_schema Earlier.flagParseFn flagParseFn].
  rewrite upgrade_validateSchema.
  destruct (Earlier.validateSchema schemas) as [v|e] eqn:Hv; cbn [bind]; [|reflexivity].
  assert (v = schemas) as ->.
  { unfold Earlier.validateSchema in Hv.
    destruct (forEach Earlier.validate_step (∅, ∅) schemas); [|discriminate].
    injection Hv as <-. reflexivity. }
  rewrite (mapM_ext _ _ args (upgrade_parse schemas)).
  destruct (mapM (parseFlagWithShema (upgrade <$> schemas)) args); cbn [bind]; [|reflexivity].
  destruct (forEach merge_step ∅ _) as [merged|]; cbn [bind]; [|reflexivity].
  rewrite upgrade_apply_schema. reflexivity.
Qed.

(** ** Positionals *)

Lemma tiniargs_positionals (args : list string) (schema : option (list FlagSchema))
    (r : ParsedArgs) :
  tiniargs args schema = Ok r → positionals r = filter_positionals args.
Proof.
  unfold tiniargs.
  destruct (flagParseFn schema) as [fn|]; [|discriminate]. cbn [bind].
  destruct (mapM fn args); [|discriminate]. cbn [bind].
  destruct (forEach merge_step ∅ _) as [merged|]; [|discriminate]. cbn [bind].
  destruct (match schema with
            | Some schema0 => apply_schema schema0 merged
            | None => Ok merged
            end); [|discriminate].
  cbn [bind]. intros [= <-]. reflexivity.
Qed.

Lemma filter_sublist {A : Type} (p : A → bool) (l : list A) : sublist (List.filter p l) l.
Proof.
  induction l as [|x l IH]; cbn [List.filter]; [constructor|].
  destruct (p x); constructor; exact IH.
Qed.

(** X14: the positionals of every result, with or without a schema, are the
    arguments that do not begin with a dash, in their order and with their
    repetitions: a subsequence of the arguments that holds exactly those
    tokens and as many as there are. *)
Theorem X14_positionals_are_the_dashless_tokens
    (args : list string) (schema : option (list FlagSchema)) (r : ParsedArgs)
    (Hrun : tiniargs args schema = Ok r) :
  sublist (positionals r) args ∧
  (∀ a, a ∈ positionals r ↔ a ∈ args ∧ Str.startsWith a "-" = false) ∧
  (length (positionals r)
     = length args - length (List.filter (λ a, Str.startsWith a "-") args))%nat.
Proof.
  rewrite (tiniargs_positionals args schema r Hrun). unfold filter_positionals.
  split; [apply filter_sublist|]. split.
  - intros a. rewrite list_elem_of_In, List.filter_In, negb_true_iff, <- list_elem_of_In.
    tauto.
  - clear Hrun. induction args as [|a l IH]; [reflexivity|]. cbn [List.filter].
    assert (length (List.filter (λ a, Str.startsWith a "-") l) ≤ length l)%nat
      by apply List.filter_length_le.
    destruct (Str.startsWith a "-"); cbn [negb length]; lia.
Qed.

Lemma X14_positionals_are_the_dashless_tokens_witness :
  sublist ["server"; "final positional"] ["server"; "--testflag"; "-f"; "final positional"].
Proof.
  apply (X14_positionals_are_the_dashless_tokens
           ["server"; "--testflag"; "-f"; "final positional"] None
           {| positionals := ["server"; "final positional"];
              flags := <["testflag" := VBoolean true]> {[ "f" := VBoolean true ]} |}).
  vm_compute. reflexivity.
Defined.

(** ** Arguments without a flag *)

Lemma mapM_all_unmatched (fn : string → result (list (option FlagPair))) (args : list string) :
  (∀ a, a ∈ args → fn a = Ok [None]) →
  ∃ parsed, mapM fn args = Ok parsed ∧ parsedFlags parsed = [].
Proof.
  induction args as [|a l IH]; intros H.
  - exists []. split; reflexivity.
  - destruct IH as (parsed & Hp & Hflat); [intros b Hb; apply H; right; exact Hb|].
    exists ([None] :: parsed). cbn [mapM]. rewrite (H a) by left. cbn [bind].
    rewrite Hp. split; [reflexivity|]. rewrite parsedFlags_cons, Hflat. reflexivity.
Qed.

(** X15: when no argument has a dash that is directly followed by a word
    character, as with no argument at all, nothing is parsed as a flag:
    without a schema the result has the dash-free tokens and no flag; with
    a validated schema [tiniargs] fails with the [MissingRequiredFlagError]
    of the first required entry that the prototype does not shadow, and
    without such an entry it returns the defaults alone. *)
Theorem X15_no_flag_in_the_arguments
    (args : list string)
    (Hnone : ∀ a, a ∈ args → dash_then_word a = false) :
  tiniargs args None = Ok {| positionals := filter_positionals args; flags := ∅ |} ∧
  ∀ schema,
    validateSchema schema = Ok schema →
    tiniargs args (Some schema) =
      match first_missing schema ∅ with
      | Some s => Throw (MissingRequiredFlagError (long s))
      | None =>
          Ok {| positionals := filter_positionals args;
                flags := foldl default_step ∅ (with_default schema) |}
      end.
Proof.
  split.
  - destruct (mapM_all_unmatched (λ arg, Ok (parseFlagNoSchema arg)) args)
      as (parsed & Hp & Hflat).
    { intros a Ha. unfold parseFlagNoSchema.
      rewrite (proj2 (FLAG_REGEX_None_iff a) (Hnone a Ha)). reflexivity. }
    unfold tiniargs. cbn [flagParseFn bind]. rewrite Hp. cbn [bind].
    rewrite Hflat. reflexivity.
  - intros schema Hvalid.
    destruct (mapM_all_unmatched (parseFlagWithShema schema) args) as (parsed & Hp & Hflat).
    { intros a Ha. unfold parseFlagWithShema.
      rewrite (proj2 (FLAG_REGEX_None_iff a) (Hnone a Ha)). reflexivity. }
    assert (forEach merge_step ∅ (parsedFlags parsed) = Ok ∅) as Hm
      by (rewrite Hflat; reflexivity).
    rewrite (tiniargs_schema_phases args schema parsed ∅ Hvalid Hp Hm), apply_schema_spec.
    destruct (first_missing schema ∅); reflexivity.
Qed.

Lemma X15_no_flag_in_the_arguments_witness :
  tiniargs ["server"; "a - b"; "--"; "x-"] None
    = Ok {| positionals := filter_positionals ["server"; "a - b"; "--"; "x-"]; flags := ∅ |}.
Proof.
  apply (X15_no_flag_in_the_arguments ["server"; "a - b"; "--"; "x-"]).
  intros a Ha. repeat (apply elem_of_cons in Ha as [->|Ha]; [reflexivity|]). inversion Ha.
Defined.

(** ** The cases of the test suite *)

Example test_simple :
  tiniargs
    [ "server"; "--testflag"; "--testing=test"; "--something_else=128";
      "--flag_with_spaces=this is a flag value with spaces in it";
      "asdf123"; "-f"; "-l"; "final positional" ] None
  = Ok {| positionals := ["server"; "asdf123"; "final positional"];
          flags :=
            <["testflag" := VBoolean true]>
              (<["testing" := VString "test"]>
                 (<["something_else" := VNumber (Integer false 128)]>
                    (<["flag_with_spaces" := VString "this is a flag value with spaces in it"]>
                       (<["f" := VBoolean true]> {[ "l" := VBoolean true ]})))) |}.
Proof. vm_compute. reflexivity. Qed.

Example test_simple_duplicate_flag :
  tiniargs ["server"; "--testflag"; "--testflag=false"] None
  = Throw (DuplicateFlagError "testflag" (JFlag (VBoolean true)) (VString "false")).
Proof. vm_compute. reflexivity. Qed.

Example test_schema_duplicate_flag_4 :
  tiniargs ["server"; "-ll"] (Some [entry "testflag" "l" "boolean"])
  = Throw (DuplicateFlagError "testflag" (JFlag (VBoolean true)) (VBoolean true)).
Proof. vm_compute. reflexivity. Qed.

Example test_schema_simple_numeric :
  tiniargs ["server"; "--testflag=28621"] (Some [entry "testflag" "l" "number"])
  = Ok {| positionals := ["server"]; flags := {[ "testflag" := VNumber (Integer false 28621) ]} |}.
Proof. vm_compute. reflexivity. Qed.

Example test_schema_invalid_number_2 :
  tiniargs ["server"; "--testflag"] (Some [entry "testflag" "l" "number"])
  = Throw (FlagParseError
             ("Failed to parse numeric flag " +:+ Str.quoted "testflag"
                +:+ " (given value " +:+ Str.quoted "undefined" +:+ ")")
             "testflag" None).
Proof. vm_compute. reflexivity. Qed.

Example test_schema_invalid_boolean_1 :
  tiniargs ["server"; "--testflag=4334"] (Some [entry "testflag" "l" "boolean"])
  = Throw (FlagParseError
             ("Invalid value " +:+ Str.quoted "4334" +:+ " for boolean flag "
                +:+ Str.quoted "testflag" +:+ ". Expected true or false")
             "testflag" (Some "4334")).
Proof. vm_compute. reflexivity. Qed.

Example test_schema_short_flag_stacking :
  tiniargs ["server"; "-face"]
    (Some [ entry "fake" "f" "boolean"; entry "aaa" "a" "boolean";
            entry "ccc" "c" "boolean"; entry "eee" "e" "boolean" ])
  = Ok {| positionals := ["server"];
          flags :=
            <["fake" := VBoolean true]>
              (<["aaa" := VBoolean true]>
                 (<["ccc" := VBoolean true]> {[ "eee" := VBoolean true ]})) |}.
Proof. vm_compute. reflexivity. Qed.

Example test_schema_long_key_in_short_form :
  tiniargs ["server"; "-testflag"] (Some [entry "testflag" "l" "boolean"])
  = Throw (UnknownFlagError "t" true).
Proof. vm_compute. reflexivity. Qed.

Example test_invalid_schema_1 :
  tiniargs ["server"; "--testflag"] (Some [entry "l" "l" "boolean"])
  = Throw (err_long_too_short (entry "l" "l" "boolean")).
Proof. vm_compute. reflexivity. Qed.

Example test_invalid_schema_3 :
  tiniargs ["server"; "--testflag"] (Some [entry "long" EmptyString "boolean"])
  = Throw (err_short_length (entry "long" EmptyString "boolean")).
Proof. vm_compute. reflexivity. Qed.

Example test_invalid_schema_5 :
  tiniargs ["server"; "--testflag"]
    (Some [entry "long" "l" "boolean"; entry "longer" "l" "boolean"])
  = Throw (SchemaValidationError ("Duplicate short flag " +:+ Str.quoted "l")).
Proof. vm_compute. reflexivity. Qed.

Example test_invalid_schema_6 :
  tiniargs ["server"; "--testflag"] (Some [entry "long" "l" "flagval"])
  = Throw (err_value_type (entry "long" "l" "flagval")).
Proof. vm_compute. reflexivity. Qed.

Example default_is_filled :
  tiniargs ["server"] (Some [optional_entry "port" "number" (Some (VNumber (Integer false 80)))])
  = Ok {| positionals := ["server"]; flags := {[ "port" := VNumber (Integer false 80) ]} |}.
Proof. vm_compute. reflexivity. Qed.

Example given_flag_beats_default :
  tiniargs ["--port=8080"] (Some [optional_entry "port" "number" (Some (VNumber (Integer false 80)))])
  = Ok {| positionals := []; flags := {[ "port" := VNumber (Integer false 8080) ]} |}.
Proof. vm_compute. reflexivity. Qed.

(** An inherited property name collides with the prototype at once. *)
Example inherited_name_collides :
  tiniargs ["--constructor"] None
  = Throw (DuplicateFlagError "constructor" (JInherited "constructor") (VBoolean true)).
Proof. vm_compute. reflexivity. Qed.
